(** * valhalla/midgard/encoded.h : the 5-bit polyline codec

    A shallow embedding of [Shape5Decoder], the two [decode] overloads and
    [encode] of [src/valhalla/midgard/encoded.h], followed by the properties
    of the codec.

    Conventions of the embedding.
    - [int] / [int32_t] is a [Z] in [-2^31, 2^31); arithmetic that can leave
      that range is written with its two's-complement wrap ([wrap32]), and
      a shift of an [int] takes its count modulo 32 ([shl32]).
    - [unsigned int] is a [Z] in [0, 2^32) ([wrapu32]).
    - a buffer ([std::string], or a [const char*] with its length) is a
      [list ascii]; the signedness of [char] is a parameter.
    - [double] is the kernel's binary64 [float].
    - A member function of the decoder is a function from the decoder to an
      outcome and the decoder it leaves behind: a C++ exception does not undo
      the assignments made before it was thrown. *)

From Stdlib Require Import ZArith List Ascii String Floats.
From Stdlib Require Import QArith Qabs Qpower Bool Lia.
Import ListNotations.

Set Warnings "-inexact-float".

Local Open Scope Z_scope.

(** ** Machine integers *)

(** Conversion to [int]: the value modulo 2^32, in [-2^31, 2^31). *)
Definition wrap32 (z : Z) : Z := (z + 2 ^ 31) mod 2 ^ 32 - 2 ^ 31.

(** Conversion to [unsigned int]. *)
Definition wrapu32 (z : Z) : Z := z mod 2 ^ 32.

Definition INT_MIN : Z := - 2 ^ 31.
Definition INT_MAX : Z := 2 ^ 31 - 1.

Definition in_int (z : Z) : Prop := INT_MIN <= z <= INT_MAX.

(** Closed facts are settled by evaluation. *)
Ltac by_computation :=
  vm_compute; repeat split; try reflexivity; try discriminate.

(** Bounds of an [int]. *)
Ltac int_bounds := unfold in_int, INT_MIN, INT_MAX in *; lia.

Definition add32 (a b : Z) : Z := wrap32 (a + b).
Definition sub32 (a b : Z) : Z := wrap32 (a - b).

(** [a << s] on [int]: the bits shifted out of the 32-bit word are lost.
    The language gives no meaning to a count of 32 or more; the shift
    instructions of x86-64 and AArch64 take the count modulo 32, and so does
    the embedding. *)
Definition shl32 (a s : Z) : Z := wrap32 (Z.shiftl a (s mod 32)).

(** [static_cast<char>(n)]: the low eight bits. *)
Definition char_of_int (n : Z) : ascii := ascii_of_N (Z.to_N (n mod 256)).

(** The code of a character, 0..255. *)
Definition code (c : ascii) : Z := Z.of_N (N_of_ascii c).

(** ** Doubles *)

(** [static_cast<double>(k)] for an [int] [k]: exact. *)
Definition double_of_int (k : Z) : float :=
  SF2Prim (binary_normalize prec emax k 0 false).

(** The integer nearest to [m * 2^e], the upper one when two are as near. *)
Definition nearest (m : positive) (e : Z) : Z :=
  if 0 <=? e then Z.pos m * 2 ^ e
  else
    let n := 2 ^ (- e) in
    let q := Z.pos m / n in
    let r := Z.pos m mod n in
    if n <=? 2 * r then q + 1 else q.

(** The integer nearest to the finite value [(-1)^s * m * 2^e], halves away
    from zero: what C's [round] returns. *)
Definition round_half_away (s : bool) (m : positive) (e : Z) : Z :=
  if s then - nearest m e else nearest m e.

(** [static_cast<int>(round(x))]. [round] yields an integral double, which
    the cast converts exactly when it fits in an [int]; a value that does not
    fit (or a NaN or an infinity) has no defined conversion, and the x86-64
    conversion instruction then yields [INT_MIN]. *)
Definition int_of_round (x : float) : Z :=
  match Prim2SF x with
  | S754_zero _ => 0
  | S754_finite s m e =>
      let k := round_half_away s m e in
      if (INT_MIN <=? k) && (k <=? INT_MAX) then k else INT_MIN
  | _ => INT_MIN
  end.

(** The exact value of a double, as a rational (0 for NaN and infinities). *)
Definition Q_of_double (x : float) : Q :=
  match Prim2SF x with
  | S754_finite s m e =>
      let v := (inject_Z (Z.pos m) * Qpower 2 e)%Q in
      if s then Qopp v else v
  | _ => 0%Q
  end.

Definition is_finite (x : float) : bool :=
  match Prim2SF x with
  | S754_zero _ | S754_finite _ _ _ => true
  | _ => false
  end.

(** ** Points and outcomes *)

(** The point type of the templates: constructible from two doubles, read
    through [first] (longitude) and [second] (latitude). *)
Record Point : Type := mkPoint { first : float; second : float }.

(** What a call can do: return, throw [std::runtime_error(what)], or read
    outside the buffer it was given. *)
Inductive outcome (A : Type) : Type :=
| Ok (a : A)
| Throw (what : string)
| OutOfBounds.
Arguments Ok {A} a.
Arguments Throw {A} what.
Arguments OutOfBounds {A}.

Definition MalformedStream : string := "Bad encoded polyline".

(** ** Containers *)

(** The containers [decode] can fill: default-constructible, grown at the
    back, read as a sequence. *)
Class container_t (C : Type) : Type := {
  container_new : C;
  emplace_back : Point -> C -> C;
  elements : C -> list Point;
  elements_new : elements container_new = [];
  elements_emplace_back :
    forall p c, elements (emplace_back p c) = elements c ++ [p]
}.

(** [std::vector]: its elements and its capacity. A push into a full vector
    reallocates to twice the capacity. *)
Record vector : Type := mkVector { data : list Point; capacity : nat }.

Definition vector_new : vector := mkVector [] 0.

Definition reserve (n : nat) (v : vector) : vector :=
  if Nat.ltb (capacity v) n then mkVector (data v) n else v.

Definition vector_emplace_back (p : Point) (v : vector) : vector :=
  if Nat.ltb (List.length (data v)) (capacity v)
  then mkVector (data v ++ [p]) (capacity v)
  else mkVector (data v ++ [p]) (Nat.max 1 (2 * capacity v)).

(** [std::list<Point>], [std::deque<Point>]: a sequence with no capacity. *)
#[export] Instance list_container : container_t (list Point) := {
  container_new := [];
  emplace_back := fun p c => c ++ [p];
  elements := fun c => c;
  elements_new := eq_refl;
  elements_emplace_back := fun p c => eq_refl
}.

(** ** The 7-bit codec *)

(** [Shape7Decoder], [decode7] and [encode7]. The header declares
    [encode7Sample] and [decode7Sample] and does not define them: they are
    parameters. [decode7Sample] is given the memory behind its pointers, the
    offsets of [*begin] and [end] and the previous value, and returns its
    outcome with the offset it leaves in [*begin]. With a sample decoder
    that is not known to move forward, the loop of [decode7] takes its fuel
    from the caller. *)
Module Varint7.
Section Samples.

Variable encode7Sample : Z -> list ascii -> list ascii.
Variable decode7Sample : list ascii -> nat -> nat -> Z -> outcome Z * nat.

Record Shape7Decoder : Type := mkShape7Decoder {
  mem : list ascii;
  begin : nat;
  end_ : nat;
  lat : Z;
  lon : Z;
  prec : float
}.

Definition Shape7Decoder_new (buf : list ascii) (precision : float)
  : Shape7Decoder :=
  mkShape7Decoder buf 0%nat (0 + List.length buf)%nat 0 0 precision.

Definition empty (d : Shape7Decoder) : bool := Nat.eqb (begin d) (end_ d).

Definition next (previous : Z) (d : Shape7Decoder)
  : outcome Z * Shape7Decoder :=
  let (r, b) := decode7Sample (mem d) (begin d) (end_ d) previous in
  (r, mkShape7Decoder (mem d) b (end_ d) (lat d) (lon d) (prec d)).

Definition pop (d : Shape7Decoder) : outcome Point * Shape7Decoder :=
  match next (lat d) d with
  | (Ok v, d1) =>
      let d1 :=
        mkShape7Decoder (mem d1) (begin d1) (end_ d1) v (lon d1) (prec d1) in
      match next (lon d1) d1 with
      | (Ok w, d2) =>
          let d2 :=
            mkShape7Decoder (mem d2) (begin d2) (end_ d2) (lat d2) w
                            (prec d2) in
          (Ok (mkPoint (double_of_int (lon d2) * prec d2)
                       (double_of_int (lat d2) * prec d2)), d2)
      | (Throw what, d2) => (Throw what, d2)
      | (OutOfBounds, d2) => (OutOfBounds, d2)
      end
  | (Throw what, d1) => (Throw what, d1)
  | (OutOfBounds, d1) => (OutOfBounds, d1)
  end.

(** The loop of [decode], instantiated with [Shape7Decoder]. *)
Fixpoint decode7_loop {C} (push : Point -> C -> C) (fuel : nat)
  (shape : Shape7Decoder) (c : C) : option (outcome C) :=
  match fuel with
  | O => None
  | S fuel' =>
      if negb (empty shape) then
        match pop shape with
        | (Ok p, shape') => decode7_loop push fuel' shape' (push p c)
        | (Throw w, _) => Some (Throw w)
        | (OutOfBounds, _) => Some OutOfBounds
        end
      else Some (Ok c)
  end.

(** [decode7] into a [std::vector]: the overload with [reserve]. *)
Definition decode7_vector (fuel : nat) (encoded : list ascii)
  (precision : float) : option (outcome vector) :=
  let length := List.length encoded in
  let shape := Shape7Decoder_new encoded precision in
  let c := vector_new in
  let c := reserve (length / 4) c in
  decode7_loop vector_emplace_back fuel shape c.

(** [decode7] into any other container. *)
Definition decode7 {C} `{container_t C} (fuel : nat) (encoded : list ascii)
  (precision : float) : option (outcome C) :=
  let shape := Shape7Decoder_new encoded precision in
  let c := container_new in
  decode7_loop emplace_back fuel shape c.

(** The state of the [for] loop of [encode7]. *)
Record encode7_state : Type := mkEncode7State {
  output : list ascii;
  last_lon : Z;
  last_lat : Z
}.

Definition encode7_step (precision : Z) (st : encode7_state) (p : Point)
  : encode7_state :=
  let lon := int_of_round (first p * double_of_int precision) in
  let lat := int_of_round (second p * double_of_int precision) in
  let output := encode7Sample (sub32 lat (last_lat st)) (output st) in
  let output := encode7Sample (sub32 lon (last_lon st)) output in
  mkEncode7State output lon lat.

Definition encode7 (points : list Point) (precision : Z) : list ascii :=
  output (fold_left (encode7_step precision) points (mkEncode7State [] 0 0)).

End Samples.
End Varint7.

(** ** Shape5Decoder *)

Section Codec.

(** Whether plain [char] is signed is the implementation's choice (it is
    on x86-64, it is not on AArch64 Linux); nothing below depends on it. *)
Variable char_is_signed : bool.

(** [int32_t(c)] for a [char]. *)
Definition int_of_char (c : ascii) : Z :=
  if (128 <=? code c) && char_is_signed then code c - 256 else code c.

(** [begin] and [end_] are offsets into [mem], the bytes behind the pointer
    the decoder was constructed with. *)
Record Shape5Decoder : Type := mkShape5Decoder {
  mem : list ascii;
  begin : nat;
  end_ : nat;
  lat : Z;
  lon : Z;
  prec : float
}.

(** [Shape5Decoder(begin, size, precision)], over the [size] bytes of [buf]. *)
Definition Shape5Decoder_new (buf : list ascii) (precision : float)
  : Shape5Decoder :=
  mkShape5Decoder buf 0%nat (0 + List.length buf)%nat 0 0 precision.

Definition set_begin (b : nat) (d : Shape5Decoder) : Shape5Decoder :=
  mkShape5Decoder (mem d) b (end_ d) (lat d) (lon d) (prec d).
Definition set_lat (v : Z) (d : Shape5Decoder) : Shape5Decoder :=
  mkShape5Decoder (mem d) (begin d) (end_ d) v (lon d) (prec d).
Definition set_lon (v : Z) (d : Shape5Decoder) : Shape5Decoder :=
  mkShape5Decoder (mem d) (begin d) (end_ d) (lat d) v (prec d).

(** Member functions: the decoder is threaded, and survives a throw. *)
Definition member (A : Type) : Type :=
  Shape5Decoder -> outcome A * Shape5Decoder.

Definition ret {A} (a : A) : member A := fun d => (Ok a, d).

Definition bind {A B} (m : member A) (k : A -> member B) : member B :=
  fun d =>
    match m d with
    | (Ok a, d') => k a d'
    | (Throw w, d') => (Throw w, d')
    | (OutOfBounds, d') => (OutOfBounds, d')
    end.

Definition gets {A} (f : Shape5Decoder -> A) : member A :=
  fun d => (Ok (f d), d).

Definition modify (f : Shape5Decoder -> Shape5Decoder) : member unit :=
  fun d => (Ok tt, f d).

Declare Scope member_scope.
Delimit Scope member_scope with member.
Notation "x <- m ;; k" := (bind m (fun x => k))
  (at level 61, m at next level, right associativity) : member_scope.
Notation "m ;; k" := (bind m (fun _ => k))
  (at level 61, right associativity) : member_scope.

Definition empty (d : Shape5Decoder) : bool := Nat.eqb (begin d) (end_ d).

(** The body of the do-while of [next]. [cur] is the memory at the cursor,
    so [*begin] is its head; the loop runs again while [byte >= 0x20]. From
    the eighth byte of a sample on, [shift] is 35 or more, and the chunk is
    shifted by [shift] modulo 32 ([shl32]). *)
Fixpoint next_loop (cur : list ascii) (shift result : Z) (d : Shape5Decoder)
  {struct cur} : outcome Z * Shape5Decoder :=
  if empty d then (Throw MalformedStream, d)
  else
    match cur with
    | [] => (OutOfBounds, d)
    | c :: cur' =>
        let d' := set_begin (S (begin d)) d in
        let byte := int_of_char c - 63 in
        let result' := Z.lor result (shl32 (Z.land byte 31) shift) in
        let shift' := add32 shift 5 in
        if 32 <=? byte then next_loop cur' shift' result' d'
        else (Ok result', d')
    end.

(** The zig-zag inverse at the end of [next]. *)
Definition unzigzag (result : Z) : Z :=
  if negb (Z.land result 1 =? 0) then Z.lnot (Z.shiftr result 1)
  else Z.shiftr result 1.

Definition next (previous : Z) : member Z :=
  (result <- (fun d => next_loop (skipn (begin d) (mem d)) 0 0 d) ;;
   ret (add32 previous (unzigzag result)))%member.

Definition pop : member Point :=
  (l <- gets lat ;;
   v <- next l ;;
   modify (set_lat v) ;;
   l' <- gets lon ;;
   w <- next l' ;;
   modify (set_lon w) ;;
   d <- gets (fun d => d) ;;
   ret (mkPoint (double_of_int (lon d) * prec d)
                (double_of_int (lat d) * prec d)))%member.

(** ** decode *)

(** The [while (!shape.empty()) c.emplace_back(shape.pop())] of both
    overloads. [None] only when [fuel] runs out. *)
Fixpoint decode_loop {C} (push : Point -> C -> C) (fuel : nat)
  (shape : Shape5Decoder) (c : C) : option (outcome C) :=
  match fuel with
  | O => None
  | S fuel' =>
      if negb (empty shape) then
        match pop shape with
        | (Ok p, shape') => decode_loop push fuel' shape' (push p c)
        | (Throw w, _) => Some (Throw w)
        | (OutOfBounds, _) => Some OutOfBounds
        end
      else Some (Ok c)
  end.

(** The overload for [std::vector], with [reserve]. *)
Definition decode_vector (encoded : list ascii) (precision : float)
  : option (outcome vector) :=
  let length := List.length encoded in
  let shape := Shape5Decoder_new encoded precision in
  let c := vector_new in
  let c := reserve (length / 4) c in
  decode_loop vector_emplace_back (S length) shape c.

(** The overload for every other container. *)
Definition decode {C} `{container_t C} (encoded : list ascii)
  (precision : float) : option (outcome C) :=
  let length := List.length encoded in
  let shape := Shape5Decoder_new encoded precision in
  let c := container_new in
  decode_loop emplace_back (S length) shape c.

(** ** encode *)

(** The zig-zag step of [serialize]. The conditional has type
    [unsigned int]; assigning it back to [number] converts to [int]. *)
Definition zigzag (number : Z) : Z :=
  if number <? 0
  then wrap32 (wrapu32 (Z.lnot (wrapu32 (Z.shiftl (wrapu32 number) 1))))
  else wrap32 (wrapu32 (shl32 number 1)).

(** The [while (number >= 0x20)] of [serialize], then its last chunk. An
    [int] below 2^31 is below 0x20 after seven shifts by five. *)
Fixpoint serialize_loop (fuel : nat) (number : Z) (output : list ascii)
  : list ascii :=
  match fuel with
  | S fuel' =>
      if 32 <=? number then
        let nextValue := add32 (Z.lor 32 (Z.land number 31)) 63 in
        let output := output ++ [char_of_int nextValue] in
        serialize_loop fuel' (Z.shiftr number 5) output
      else
        let number := add32 number 63 in
        output ++ [char_of_int number]
  | O =>
      let number := add32 number 63 in
      output ++ [char_of_int number]
  end.

Definition serialize (number : Z) (output : list ascii) : list ascii :=
  serialize_loop 7 (zigzag number) output.

(** The state of the [for] loop of [encode]. *)
Record encode_state : Type := mkEncodeState {
  output : list ascii;
  last_lon : Z;
  last_lat : Z
}.

Definition encode_step (precision : Z) (st : encode_state) (p : Point)
  : encode_state :=
  let lon := int_of_round (first p * double_of_int precision) in
  let lat := int_of_round (second p * double_of_int precision) in
  let output := serialize (sub32 lat (last_lat st)) (output st) in
  let output := serialize (sub32 lon (last_lon st)) output in
  mkEncodeState output lon lat.

Definition encode (points : list Point) (precision : Z) : list ascii :=
  output (fold_left (encode_step precision) points (mkEncodeState [] 0 0)).

(** The default precisions of the header (six digits). *)
Definition DECODE_PRECISION : float := 1e-6.
Definition ENCODE_PRECISION : Z := 1000000.

(** ** Definitions of the specification *)

(** The continuation flag of a byte of the stream: [byte >= 0x20] after the
    offset is removed. *)
Definition flagged (c : ascii) : bool := 32 <=? int_of_char c - 63.

(** A complete sample: flagged bytes closed by one byte without the flag. *)
Fixpoint complete_sample (s : list ascii) : bool :=
  match s with
  | [] => false
  | c :: s' =>
      if flagged c then complete_sample s'
      else match s' with [] => true | _ => false end
  end.

(** A decoder whose cursor is inside the buffer it was given. *)
Definition cursor_ok (d : Shape5Decoder) : Prop :=
  (begin d <= end_ d)%nat /\ (end_ d <= List.length (mem d))%nat.

(** The bytes between the cursor and the end. *)
Definition unread (d : Shape5Decoder) : list ascii :=
  firstn (end_ d - begin d) (skipn (begin d) (mem d)).

(** The loop of [next] read off a list: the accumulated result and the bytes
    left, or [None] when the list ends before a byte without the flag. *)
Fixpoint read_sample (bytes : list ascii) (shift result : Z)
  : option (Z * list ascii) :=
  match bytes with
  | [] => None
  | c :: bytes' =>
      let byte := int_of_char c - 63 in
      let result' := Z.lor result (shl32 (Z.land byte 31) shift) in
      if 32 <=? byte then read_sample bytes' (add32 shift 5) result'
      else Some (result', bytes')
  end.

(** A delta the zig-zag step keeps within an [int]. *)
Definition zigzag_safe (d : Z) : Prop := - 2 ^ 30 <= d < 2 ^ 30.

(** The number of continuation bytes of the sample that carries [z]. *)
Definition continuation_count (z : Z) : nat := Z.to_nat (Z.log2 z / 5).

(** The [i]-th 5-bit chunk of [z], least significant first. *)
Definition chunk (z : Z) (i : nat) : Z :=
  Z.land (Z.shiftr z (5 * Z.of_nat i)) 31.

(** The bytes of one sample as the format describes them: the chunks of [z]
    from the least significant one, each but the last with the continuation
    bit, all offset by 63. *)
Definition varint5 (z : Z) : list ascii :=
  let n := continuation_count z in
  map (fun i => char_of_int (Z.lor 32 (chunk z i) + 63)) (seq 0 n)
  ++ [char_of_int (Z.shiftr z (5 * Z.of_nat n) + 63)].

Definition printable (c : ascii) : Prop := 63 <= code c <= 126.

(** The integer coordinates [encode] computes for a point: (lon, lat). *)
Definition scaled (precision : Z) (p : Point) : Z * Z :=
  (int_of_round (first p * double_of_int precision),
   int_of_round (second p * double_of_int precision)).

(** The point [pop] builds from integer coordinates (lon, lat). *)
Definition unscaled (precision : float) (k : Z * Z) : Point :=
  mkPoint (double_of_int (fst k) * precision)
          (double_of_int (snd k) * precision).

(** The deltas of a sequence of integer coordinates (lon, lat) against the
    previous ones, as pairs (latitude delta, longitude delta). *)
Fixpoint deltas (prev_lon prev_lat : Z) (l : list (Z * Z)) : list (Z * Z) :=
  match l with
  | [] => []
  | (lon, lat) :: l' =>
      (sub32 lat prev_lat, sub32 lon prev_lon) :: deltas lon lat l'
  end.

(** The bytes of one point: its latitude delta, then its longitude delta. *)
Definition point_bytes (dl : Z * Z) : list ascii :=
  serialize (fst dl) [] ++ serialize (snd dl) [].

(** Every delta of the sequence is one the zig-zag step keeps. *)
Fixpoint deltas_safe (prev_lon prev_lat : Z) (l : list (Z * Z)) : Prop :=
  match l with
  | [] => True
  | (lon, lat) :: l' =>
      zigzag_safe (lat - prev_lat) /\ zigzag_safe (lon - prev_lon) /\
      deltas_safe lon lat l'
  end.

(** A double whose value fits in an [int]. *)
Definition fits_int (y : float) : Prop :=
  is_finite y = true /\
  (inject_Z INT_MIN <= Q_of_double y <= inject_Z INT_MAX)%Q.

(** A point whose scaled coordinates fit in an [int]. *)
Definition representable (precision : Z) (p : Point) : Prop :=
  fits_int (first p * double_of_int precision) /\
  fits_int (second p * double_of_int precision).

Definition outcome_map {A B} (f : A -> B) (o : outcome A) : outcome B :=
  match o with
  | Ok a => Ok (f a)
  | Throw w => Throw w
  | OutOfBounds => OutOfBounds
  end.

(** The sequence a call of [decode] returned, whatever the container. *)
Definition decoded {C} (f : C -> list Point) (r : option (outcome C))
  : option (outcome (list Point)) :=
  option_map (outcome_map f) r.

(** The decoder after [n] calls of [pop], failed ones included. *)
Definition pops (n : nat) (d : Shape5Decoder) : Shape5Decoder :=
  Nat.iter n (fun d => snd (pop d)) d.

(** The loop of [decode] read off a list of bytes and the two accumulators:
    the integer coordinates (lon, lat) of the points, in order. [None] only
    when [fuel] runs out. *)
Fixpoint decode_ints_loop (fuel : nat) (bytes : list ascii) (lon lat : Z)
  : option (outcome (list (Z * Z))) :=
  match fuel with
  | O => None
  | S fuel' =>
      match bytes with
      | [] => Some (Ok [])
      | _ :: _ =>
          match read_sample bytes 0 0 with
          | None => Some (Throw MalformedStream)
          | Some (v1, r1) =>
              let lat' := add32 lat (unzigzag v1) in
              match read_sample r1 0 0 with
              | None => Some (Throw MalformedStream)
              | Some (v2, r2) =>
                  let lon' := add32 lon (unzigzag v2) in
                  match decode_ints_loop fuel' r2 lon' lat' with
                  | Some (Ok l) => Some (Ok ((lon', lat') :: l))
                  | other => other
                  end
              end
          end
      end
  end.

(** The integer coordinates a buffer carries, from accumulators at zero. *)
Definition decode_ints (bytes : list ascii) : option (outcome (list (Z * Z))) :=
  decode_ints_loop (S (List.length bytes)) bytes 0 0.

(** The running sums, in [int] arithmetic, of a sequence of deltas (latitude
    delta, longitude delta): the integer coordinates (lon, lat). *)
Fixpoint running (lon lat : Z) (dl : list (Z * Z)) : list (Z * Z) :=
  match dl with
  | [] => []
  | (dlat, dlon) :: dl' =>
      let lat' := add32 lat dlat in
      let lon' := add32 lon dlon in
      (lon', lat') :: running lon' lat' dl'
  end.

(** The sample decoder of [Shape5Decoder] in the shape of [decode7Sample]:
    [next] on a decoder over the same memory and offsets. *)
Definition decode5Sample (memory : list ascii) (b e : nat) (previous : Z)
  : outcome Z * nat :=
  let r := next previous (mkShape5Decoder memory b e 0 0 0%float) in
  (fst r, begin (snd r)).

(** A [Shape7Decoder] read as a [Shape5Decoder]: the same members. *)
Definition as_Shape5Decoder (d : Varint7.Shape7Decoder) : Shape5Decoder :=
  mkShape5Decoder (Varint7.mem d) (Varint7.begin d) (Varint7.end_ d)
                  (Varint7.lat d) (Varint7.lon d) (Varint7.prec d).

(** ** Machine integers: basic facts *)

Lemma wrap32_id z : in_int z -> wrap32 z = z.
Proof.
  unfold in_int, INT_MIN, INT_MAX, wrap32. intros H.
  rewrite Z.mod_small; lia.
Qed.

Lemma wrap32_range z : in_int (wrap32 z).
Proof.
  unfold in_int, INT_MIN, INT_MAX, wrap32.
  pose proof (Z.mod_pos_bound (z + 2 ^ 31) (2 ^ 32) ltac:(lia)). lia.
Qed.

Lemma wrapu32_id z : 0 <= z < 2 ^ 32 -> wrapu32 z = z.
Proof. intros H. unfold wrapu32. apply Z.mod_small. lia. Qed.

Lemma zigzag_nonneg d : 0 <= d < 2 ^ 30 -> zigzag d = 2 * d.
Proof.
  intros H. unfold zigzag.
  destruct (Z.ltb_spec d 0) as [Hn | _]; [lia |].
  unfold shl32. change (1 mod 32) with 1.
  rewrite Z.shiftl_mul_pow2 by lia.
  change (2 ^ 1) with 2.
  rewrite (wrap32_id (d * 2)) by int_bounds.
  rewrite wrapu32_id by lia.
  rewrite wrap32_id by int_bounds. lia.
Qed.

Lemma zigzag_neg d : - 2 ^ 30 <= d < 0 -> zigzag d = - 2 * d - 1.
Proof.
  intros H. unfold zigzag.
  destruct (Z.ltb_spec d 0) as [_ | Hn]; [| lia].
  assert (E1 : wrapu32 d = d + 2 ^ 32).
  { unfold wrapu32. symmetry. apply (Z.mod_unique d (2 ^ 32) (-1)); lia. }
  rewrite E1, Z.shiftl_mul_pow2 by lia. change (2 ^ 1) with 2.
  assert (E2 : wrapu32 ((d + 2 ^ 32) * 2) = 2 * d + 2 ^ 32).
  { unfold wrapu32. symmetry.
    apply (Z.mod_unique _ (2 ^ 32) 1); lia. }
  rewrite E2. unfold Z.lnot.
  assert (E3 : wrapu32 (Z.pred (- (2 * d + 2 ^ 32))) = - 2 * d - 1).
  { unfold wrapu32. symmetry.
    apply (Z.mod_unique _ (2 ^ 32) (-1)); lia. }
  rewrite E3. apply wrap32_id. int_bounds.
Qed.

Lemma zigzag_range d : zigzag_safe d -> 0 <= zigzag d < 2 ^ 31.
Proof.
  unfold zigzag_safe. intros H.
  destruct (Z_lt_le_dec d 0).
  - rewrite zigzag_neg; lia.
  - rewrite zigzag_nonneg; lia.
Qed.

Lemma unzigzag_zigzag d : zigzag_safe d -> unzigzag (zigzag d) = d.
Proof.
  unfold zigzag_safe. intros H. unfold unzigzag.
  change 1 with (Z.ones 1) at 1. rewrite Z.land_ones by lia.
  rewrite Z.shiftr_div_pow2 by lia. change (2 ^ 1) with 2.
  destruct (Z_lt_le_dec d 0).
  - rewrite zigzag_neg by lia.
    replace (- 2 * d - 1) with (1 + (- d - 1) * 2) by lia.
    rewrite Z.mod_add, Z.div_add by lia. simpl. unfold Z.lnot. lia.
  - rewrite zigzag_nonneg by lia.
    replace (2 * d) with (0 + d * 2) by lia.
    rewrite Z.mod_add, Z.div_add by lia. simpl. lia.
Qed.

(** ** Characters *)

Lemma code_char_of_int v : 0 <= v < 256 -> code (char_of_int v) = v.
Proof.
  intros H. unfold code, char_of_int.
  rewrite Z.mod_small by lia.
  rewrite N_ascii_embedding.
  - apply Z2N.id. lia.
  - change 256%N with (Z.to_N 256). apply Z2N.inj_lt; lia.
Qed.

Lemma int_of_char_of_int v : 0 <= v < 128 -> int_of_char (char_of_int v) = v.
Proof.
  intros H. unfold int_of_char. rewrite code_char_of_int by lia.
  destruct (Z.leb_spec 128 v); [lia | reflexivity].
Qed.

(** ** serialize *)

Lemma serialize_loop_output fuel : forall number out,
  serialize_loop fuel number out = out ++ serialize_loop fuel number [].
Proof.
  induction fuel as [| fuel IH]; intros number out; simpl.
  - reflexivity.
  - destruct (32 <=? number); [| reflexivity].
    rewrite IH. symmetry. rewrite IH. now rewrite app_assoc.
Qed.

Lemma land_31_range z : 0 <= Z.land z 31 < 32.
Proof.
  change 31 with (Z.ones 5). rewrite Z.land_ones by lia.
  apply Z.mod_pos_bound. lia.
Qed.

Lemma lor_32_chunk c : 0 <= c < 32 -> Z.lor 32 c = 32 + c.
Proof.
  intros H.
  assert (D : Z.land 32 c = 0).
  { apply Z.bits_inj'. intros n Hn. rewrite Z.land_spec, Z.bits_0.
    destruct (Z.eq_dec n 5) as [-> | Hne].
    - replace (Z.testbit c 5) with false; [apply andb_false_r |].
      symmetry. destruct (Z.eq_dec c 0) as [-> | Hc]; [apply Z.bits_0 |].
      apply Z.bits_above_log2; [lia |].
      assert (Z.log2 c < 5); [| lia].
      apply Z.log2_lt_pow2; lia.
    - replace (Z.testbit 32 n) with false; [reflexivity |].
      symmetry. change 32 with (2 ^ 5). apply Z.pow2_bits_false. lia. }
  rewrite <- (Z.lxor_lor _ _ D). symmetry. now apply Z.add_nocarry_lxor.
Qed.

Lemma continuation_count_small z : 0 <= z < 32 -> continuation_count z = 0%nat.
Proof.
  intros H. unfold continuation_count.
  destruct (Z.eq_dec z 0) as [-> | Hz]; [reflexivity |].
  assert (Z.log2 z < 5) by (apply Z.log2_lt_pow2; lia).
  pose proof (Z.log2_nonneg z).
  rewrite Z.div_small by lia. reflexivity.
Qed.

Lemma continuation_count_shift z :
  32 <= z -> continuation_count z = S (continuation_count (Z.shiftr z 5)).
Proof.
  intros H. unfold continuation_count.
  rewrite Z.log2_shiftr by lia.
  assert (5 <= Z.log2 z) by (apply Z.log2_le_pow2; lia).
  rewrite Z.max_r by lia.
  replace (Z.log2 z) with ((Z.log2 z - 5) + 1 * 5) at 1 by lia.
  rewrite Z.div_add by lia.
  rewrite Z2Nat.inj_add.
  - rewrite Nat.add_comm. reflexivity.
  - apply Z.div_pos; lia.
  - lia.
Qed.

Lemma chunk_shift z i : chunk z (S i) = chunk (Z.shiftr z 5) i.
Proof.
  unfold chunk. rewrite Z.shiftr_shiftr by lia.
  do 2 f_equal. lia.
Qed.

Lemma varint5_small z : 0 <= z < 32 -> varint5 z = [char_of_int (z + 63)].
Proof.
  intros H. unfold varint5. rewrite continuation_count_small by assumption.
  cbn [seq map app]. change (5 * Z.of_nat 0) with 0.
  rewrite Z.shiftr_0_r. reflexivity.
Qed.

Lemma varint5_shift z :
  32 <= z ->
  varint5 z =
  char_of_int (Z.lor 32 (Z.land z 31) + 63) :: varint5 (Z.shiftr z 5).
Proof.
  intros H. unfold varint5. rewrite continuation_count_shift by assumption.
  set (n := continuation_count (Z.shiftr z 5)).
  assert (E0 : chunk z 0 = Z.land z 31).
  { unfold chunk. change (5 * Z.of_nat 0) with 0. now rewrite Z.shiftr_0_r. }
  assert (En : Z.shiftr z (5 * Z.of_nat (S n)) =
               Z.shiftr (Z.shiftr z 5) (5 * Z.of_nat n)).
  { rewrite Z.shiftr_shiftr by lia. f_equal. lia. }
  cbn [seq map app]. rewrite E0, En, <- seq_shift, map_map.
  rewrite (map_ext _ _ (fun i =>
             f_equal (fun c => char_of_int (Z.lor 32 c + 63)) (chunk_shift z i))).
  reflexivity.
Qed.

Lemma serialize_loop_varint5 fuel : forall z out,
  0 <= z < 2 ^ (5 * Z.of_nat fuel) ->
  serialize_loop fuel z out = out ++ varint5 z.
Proof.
  induction fuel as [| fuel IH]; intros z out H.
  - simpl in H. assert (z = 0) by lia. subst z. reflexivity.
  - cbn [serialize_loop]. destruct (Z.leb_spec 32 z) as [Hz | Hz].
    + assert (Hs : 0 <= Z.shiftr z 5 < 2 ^ (5 * Z.of_nat fuel)).
      { rewrite Z.shiftr_div_pow2 by lia. split.
        - apply Z.div_pos; lia.
        - apply Z.div_lt_upper_bound; [lia |].
          rewrite <- Z.pow_add_r by lia.
          replace (5 + 5 * Z.of_nat fuel) with (5 * Z.of_nat (S fuel)) by lia.
          lia. }
      rewrite (IH _ _ Hs), (varint5_shift z Hz).
      unfold add32. pose proof (land_31_range z).
      rewrite lor_32_chunk by assumption.
      rewrite wrap32_id by int_bounds.
      rewrite <- app_assoc. reflexivity.
    + rewrite varint5_small by lia. unfold add32.
      rewrite wrap32_id by int_bounds.
      reflexivity.
Qed.

Lemma serialize_varint5 d out :
  zigzag_safe d -> serialize d out = out ++ varint5 (zigzag d).
Proof.
  intros H. unfold serialize. apply serialize_loop_varint5.
  pose proof (zigzag_range d H). change (5 * Z.of_nat 7) with 35. lia.
Qed.

Lemma varint5_printable z : 0 <= z -> Forall printable (varint5 z).
Proof.
  intros H. unfold varint5. apply Forall_app. split.
  - apply Forall_forall. intros c Hc. apply in_map_iff in Hc.
    destruct Hc as [i [<- _]]. unfold printable, chunk.
    pose proof (land_31_range (Z.shiftr z (5 * Z.of_nat i))).
    rewrite lor_32_chunk by assumption.
    rewrite code_char_of_int; lia.
  - constructor; [| constructor]. unfold printable.
    set (n := continuation_count z).
    assert (0 <= Z.shiftr z (5 * Z.of_nat n) < 32).
    { rewrite Z.shiftr_div_pow2 by lia. split; [apply Z.div_pos; lia |].
      apply Z.div_lt_upper_bound; [lia |].
      destruct (Z.eq_dec z 0) as [-> | Hz]; [lia |].
      change 32 with (2 ^ 5). rewrite <- Z.pow_add_r by lia.
      apply Z.log2_lt_pow2; [lia |].
      unfold n, continuation_count.
      rewrite Z2Nat.id by (apply Z.div_pos; [apply Z.log2_nonneg | lia]).
      pose proof (Z.mul_succ_div_gt (Z.log2 z) 5 ltac:(lia)). lia. }
    rewrite code_char_of_int; lia.
Qed.

(** ** Reading a sample back *)

Lemma lor_low_high z : Z.lor (Z.land z 31) (Z.shiftl (Z.shiftr z 5) 5) = z.
Proof.
  apply Z.bits_inj'. intros n Hn.
  rewrite Z.lor_spec, Z.land_spec, Z.shiftl_spec by lia.
  change 31 with (Z.ones 5). rewrite Z.testbit_ones by lia.
  destruct (Z.ltb_spec n 5) as [Hlt | Hge].
  - rewrite (Z.testbit_neg_r _ (n - 5)) by lia.
    destruct (Z.leb_spec 0 n); [| lia].
    now destruct (Z.testbit z n).
  - rewrite Z.shiftr_spec by lia.
    replace (n - 5 + 5) with n by lia.
    now rewrite !andb_false_r.
Qed.

Lemma land_32_plus c : 0 <= c < 32 -> Z.land (32 + c) 31 = c.
Proof.
  intros H. change 31 with (Z.ones 5). rewrite Z.land_ones by lia.
  change (2 ^ 5) with 32.
  replace (32 + c) with (c + 1 * 32) by lia.
  rewrite Z.mod_add by lia. apply Z.mod_small. lia.
Qed.

Lemma land_31_small c : 0 <= c < 32 -> Z.land c 31 = c.
Proof.
  intros H. change 31 with (Z.ones 5). rewrite Z.land_ones by lia.
  apply Z.mod_small. change (2 ^ 5) with 32. lia.
Qed.

Lemma shl32_exact a s :
  0 <= a -> 0 <= s -> a * 2 ^ s < 2 ^ 31 -> shl32 a s = Z.shiftl a s.
Proof.
  intros Ha Hs H. unfold shl32.
  destruct (Z.eq_dec a 0) as [-> | Hne].
  - now rewrite !Z.shiftl_0_l.
  - assert (Hlt : s < 32).
    { destruct (Z_lt_le_dec s 32) as [Hlt | Hge]; [exact Hlt |].
      assert (2 ^ 32 <= 2 ^ s) by (apply Z.pow_le_mono_r; lia). nia. }
    rewrite Z.mod_small by lia. apply wrap32_id.
    rewrite Z.shiftl_mul_pow2 by lia.
    unfold in_int, INT_MIN, INT_MAX.
    assert (0 <= a * 2 ^ s) by (apply Z.mul_nonneg_nonneg; lia). lia.
Qed.

Lemma read_sample_last z s r rest :
  0 <= z < 32 -> 0 <= s -> z * 2 ^ s < 2 ^ 31 ->
  read_sample (varint5 z ++ rest) s r = Some (Z.lor r (Z.shiftl z s), rest).
Proof.
  intros Hz Hs Hb.
  rewrite varint5_small by lia. cbn [app read_sample].
  rewrite int_of_char_of_int by lia.
  replace (z + 63 - 63) with z by lia.
  destruct (Z.leb_spec 32 z); [lia |].
  rewrite land_31_small by lia.
  rewrite shl32_exact by lia. reflexivity.
Qed.

Lemma read_sample_varint5 k : forall z s r rest,
  0 <= z < 2 ^ (5 * Z.of_nat k) ->
  0 <= s -> z * 2 ^ s < 2 ^ 31 -> s + 5 * Z.of_nat k < 2 ^ 31 ->
  read_sample (varint5 z ++ rest) s r = Some (Z.lor r (Z.shiftl z s), rest).
Proof.
  induction k as [| k IH]; intros z s r rest Hz Hs Hb Hk.
  - apply read_sample_last; try assumption. simpl in Hz. lia.
  - assert (P : 0 < 2 ^ s) by (apply Z.pow_pos_nonneg; lia).
    destruct (Z_lt_le_dec z 32) as [Hlt | Hge].
    + apply read_sample_last; try assumption. lia.
    + rewrite varint5_shift by lia. cbn [app read_sample].
      pose proof (land_31_range z) as Hc.
      rewrite lor_32_chunk by assumption.
      rewrite int_of_char_of_int by lia.
      replace (32 + Z.land z 31 + 63 - 63) with (32 + Z.land z 31) by lia.
      destruct (Z.leb_spec 32 (32 + Z.land z 31)); [| lia].
      rewrite land_32_plus by assumption.
      assert (Hcz : Z.land z 31 <= z).
      { change 31 with (Z.ones 5). rewrite Z.land_ones by lia.
        apply Z.mod_le; lia. }
      rewrite shl32_exact by nia.
      unfold add32. rewrite wrap32_id by int_bounds.
      assert (Hq : 0 <= Z.shiftr z 5 < 2 ^ (5 * Z.of_nat k)).
      { rewrite Z.shiftr_div_pow2 by lia. split.
        - apply Z.div_pos; lia.
        - apply Z.div_lt_upper_bound; [lia |].
          rewrite <- Z.pow_add_r by lia.
          replace (5 + 5 * Z.of_nat k) with (5 * Z.of_nat (S k)) by lia.
          lia. }
      rewrite IH; try lia.
      * rewrite <- Z.lor_assoc. do 2 f_equal.
        rewrite (Z.add_comm s 5), <- (Z.shiftl_shiftl _ 5 s) by lia.
        rewrite <- Z.shiftl_lor, lor_low_high.
        reflexivity.
      * rewrite Z.pow_add_r by lia. rewrite Z.shiftr_div_pow2 by lia.
        change (2 ^ 5) with 32.
        pose proof (Z.mul_div_le z 32 ltac:(lia)). nia.
Qed.

Lemma read_sample_serialize d rest :
  zigzag_safe d ->
  read_sample (serialize d [] ++ rest) 0 0 = Some (zigzag d, rest).
Proof.
  intros H. rewrite serialize_varint5 by assumption. cbn [app].
  pose proof (zigzag_range d H).
  rewrite (read_sample_varint5 7); try (change (5 * Z.of_nat 7) with 35; lia).
  now rewrite Z.shiftl_0_r.
Qed.

(** ** The cursor *)

Lemma set_begin_same d : set_begin (begin d) d = d.
Proof. now destruct d. Qed.

Lemma unread_length d :
  cursor_ok d -> List.length (unread d) = (end_ d - begin d)%nat.
Proof.
  intros [Hb He]. unfold unread.
  rewrite length_firstn, length_skipn. lia.
Qed.

Lemma unread_at_end d : begin d = end_ d -> unread d = [].
Proof. intros E. unfold unread. rewrite E, Nat.sub_diag. reflexivity. Qed.

Lemma skipn_S_cons {A} (l : list A) : forall n c l',
  skipn n l = c :: l' -> skipn (S n) l = l'.
Proof.
  induction l as [| a l IH]; intros n c l' H.
  - now rewrite skipn_nil in H.
  - destruct n as [| n].
    + simpl in H. injection H as _ ->. reflexivity.
    + simpl in H. change (skipn (S (S n)) (a :: l)) with (skipn (S n) l).
      eapply IH; eassumption.
Qed.

Lemma unread_cons d :
  cursor_ok d -> begin d <> end_ d ->
  exists c, skipn (begin d) (mem d) = c :: skipn (S (begin d)) (mem d) /\
            unread d = c :: unread (set_begin (S (begin d)) d).
Proof.
  intros [Hb He] Hne.
  destruct (skipn (begin d) (mem d)) as [| c l'] eqn:E.
  - apply (f_equal (@List.length ascii)) in E.
    rewrite length_skipn in E. simpl in E. lia.
  - exists c. rewrite (skipn_S_cons _ _ _ _ E). split; [reflexivity |].
    unfold unread. cbn [set_begin begin end_ mem]. rewrite E.
    rewrite (skipn_S_cons _ _ _ _ E).
    replace (end_ d - begin d)%nat with (S (end_ d - S (begin d))) by lia.
    reflexivity.
Qed.

Lemma cursor_ok_step d :
  cursor_ok d -> begin d <> end_ d -> cursor_ok (set_begin (S (begin d)) d).
Proof. unfold cursor_ok. cbn. lia. Qed.

Lemma unread_after d smp rest :
  cursor_ok d -> unread d = smp ++ rest ->
  (end_ d - List.length rest = begin d + List.length smp)%nat /\
  cursor_ok (set_begin (end_ d - List.length rest) d) /\
  unread (set_begin (end_ d - List.length rest) d) = rest.
Proof.
  intros Hok E. pose proof (unread_length d Hok) as L.
  rewrite E, length_app in L. destruct Hok as [Hb He].
  assert (P : (end_ d - List.length rest = begin d + List.length smp)%nat)
    by lia.
  split; [exact P |]. split.
  - unfold cursor_ok. cbn. lia.
  - rewrite P. unfold unread in *. cbn [set_begin begin end_ mem].
    rewrite Nat.add_comm, <- skipn_skipn, firstn_skipn_comm.
    replace (List.length smp + (end_ d - (List.length smp + begin d)))%nat
      with (end_ d - begin d)%nat by lia.
    rewrite E, skipn_app, skipn_all, Nat.sub_diag. reflexivity.
Qed.

(** [next_loop] is [read_sample] on the unread bytes. *)
Lemma next_loop_read_sample n : forall d cur shift result,
  (end_ d - begin d)%nat = n -> cursor_ok d ->
  cur = skipn (begin d) (mem d) ->
  next_loop cur shift result d =
  match read_sample (unread d) shift result with
  | Some (v, rest) => (Ok v, set_begin (end_ d - List.length rest) d)
  | None => (Throw MalformedStream, set_begin (end_ d) d)
  end.
Proof.
  induction n as [| n IH]; intros d cur shift result Hn Hok Hcur.
  - assert (E : begin d = end_ d) by (destruct Hok; lia).
    rewrite (unread_at_end d E). cbn [read_sample].
    rewrite <- E, set_begin_same.
    destruct cur; cbn [next_loop]; unfold empty; rewrite E, Nat.eqb_refl;
      reflexivity.
  - assert (Hne : begin d <> end_ d) by lia.
    destruct (unread_cons d Hok Hne) as [c [Ec Eu]].
    rewrite Hcur, Ec, Eu. cbn [next_loop read_sample].
    unfold empty at 1. rewrite (proj2 (Nat.eqb_neq _ _) Hne).
    pose proof (cursor_ok_step d Hok Hne) as Hok'.
    destruct (32 <=? int_of_char c - 63).
    + rewrite (IH (set_begin (S (begin d)) d)); try assumption;
        [| cbn; lia | reflexivity].
      destruct (read_sample _ _ _) as [[v rest] |]; reflexivity.
    + rewrite (unread_length _ Hok'). cbn [set_begin begin end_].
      f_equal. f_equal. destruct Hok. lia.
Qed.

Lemma next_read_sample d previous :
  cursor_ok d ->
  next previous d =
  match read_sample (unread d) 0 0 with
  | Some (v, rest) =>
      (Ok (add32 previous (unzigzag v)),
       set_begin (end_ d - List.length rest) d)
  | None => (Throw MalformedStream, set_begin (end_ d) d)
  end.
Proof.
  intros Hok. unfold next, bind.
  rewrite (next_loop_read_sample _ d _ 0 0 eq_refl Hok eq_refl).
  destruct (read_sample _ _ _) as [[v rest] |]; reflexivity.
Qed.

(** What [read_sample] consumes is a complete sample, and it fails exactly
    on flagged bytes up to the end. *)
Lemma read_sample_some bytes : forall shift result v rest,
  read_sample bytes shift result = Some (v, rest) ->
  exists smp, bytes = smp ++ rest /\ complete_sample smp = true.
Proof.
  induction bytes as [| c bytes IH]; intros shift result v rest H.
  - discriminate.
  - cbn [read_sample] in H.
    destruct (32 <=? int_of_char c - 63) eqn:F.
    + destruct (IH _ _ _ _ H) as [smp [-> Hs]].
      exists (c :: smp). split; [reflexivity |].
      cbn [complete_sample]. unfold flagged. now rewrite F.
    + injection H as _ ->. exists [c]. split; [reflexivity |].
      cbn [complete_sample]. unfold flagged. now rewrite F.
Qed.

Lemma read_sample_none bytes : forall shift result,
  read_sample bytes shift result = None <->
  Forall (fun c => flagged c = true) bytes.
Proof.
  induction bytes as [| c bytes IH]; intros shift result.
  - split; [constructor | reflexivity].
  - cbn [read_sample]. fold (flagged c).
    destruct (flagged c) eqn:F.
    + rewrite IH. split.
      * intros H. now constructor.
      * intros H. now inversion H.
    + split; [discriminate |]. intros H. inversion H. congruence.
Qed.

Lemma read_sample_complete smp : forall rest shift result,
  complete_sample smp = true ->
  exists v, read_sample (smp ++ rest) shift result = Some (v, rest).
Proof.
  induction smp as [| c smp IH]; intros rest shift result H.
  - discriminate.
  - cbn [complete_sample] in H. cbn [app read_sample]. fold (flagged c).
    destruct (flagged c).
    + now apply IH.
    + destruct smp; [| discriminate]. eexists. reflexivity.
Qed.

(** ** pop *)

Lemma complete_sample_nonempty smp :
  complete_sample smp = true -> (0 < List.length smp)%nat.
Proof. destruct smp; [discriminate | simpl; lia]. Qed.

Lemma cursor_ok_set_lat v d : cursor_ok d -> cursor_ok (set_lat v d).
Proof. exact (fun H => H). Qed.

Lemma unread_set_lat v d : unread (set_lat v d) = unread d.
Proof. reflexivity. Qed.

(** [pop] on the unread bytes: the first sample moves the latitude, the
    second the longitude; a failure on the second leaves the latitude moved
    and the cursor at the end. *)
Lemma pop_read_sample d :
  cursor_ok d ->
  pop d =
  match read_sample (unread d) 0 0 with
  | None =>
      (Throw MalformedStream,
       mkShape5Decoder (mem d) (end_ d) (end_ d) (lat d) (lon d) (prec d))
  | Some (v1, r1) =>
      let la := add32 (lat d) (unzigzag v1) in
      match read_sample r1 0 0 with
      | None =>
          (Throw MalformedStream,
           mkShape5Decoder (mem d) (end_ d) (end_ d) la (lon d) (prec d))
      | Some (v2, r2) =>
          let lo := add32 (lon d) (unzigzag v2) in
          (Ok (mkPoint (double_of_int lo * prec d)
                       (double_of_int la * prec d)),
           mkShape5Decoder (mem d) (end_ d - List.length r2) (end_ d)
                           la lo (prec d))
      end
  end.
Proof.
  intros Hok. unfold pop. unfold bind at 1. unfold gets at 1.
  unfold bind at 1. rewrite (next_read_sample d (lat d) Hok).
  destruct (read_sample (unread d) 0 0) as [[v1 r1] |] eqn:E1;
    [| reflexivity].
  destruct (read_sample_some _ _ _ _ _ E1) as [smp1 [Eu _]].
  destruct (unread_after d smp1 r1 Hok Eu) as [_ [Hok1 Eu1]].
  set (d1 := set_begin (end_ d - List.length r1) d) in *.
  unfold bind at 1. unfold modify at 1. unfold bind at 1. unfold gets at 1.
  unfold bind at 1.
  rewrite (next_read_sample _ _ (cursor_ok_set_lat _ d1 Hok1)).
  rewrite unread_set_lat, Eu1.
  destruct (read_sample r1 0 0) as [[v2 r2] |]; reflexivity.
Qed.

Lemma empty_false_unread d :
  cursor_ok d -> unread d <> [] -> empty d = false.
Proof.
  intros Hok H. unfold empty. apply Nat.eqb_neq. intros E.
  apply H. now apply unread_at_end.
Qed.

Lemma empty_true_unread d : empty d = true -> unread d = [].
Proof.
  unfold empty. intros H. apply Nat.eqb_eq in H. now apply unread_at_end.
Qed.

(** ** decode *)

Lemma unread_nil_empty d : cursor_ok d -> unread d = [] -> empty d = true.
Proof.
  intros Hok E. pose proof (unread_length d Hok) as L. rewrite E in L.
  unfold empty. apply Nat.eqb_eq. destruct Hok. simpl in L. lia.
Qed.

(** One turn of the loop on a buffer that starts with two complete samples. *)
Lemma pop_two_samples d v1 r1 v2 r2 :
  cursor_ok d ->
  read_sample (unread d) 0 0 = Some (v1, r1) ->
  read_sample r1 0 0 = Some (v2, r2) ->
  let la := add32 (lat d) (unzigzag v1) in
  let lo := add32 (lon d) (unzigzag v2) in
  let d' := mkShape5Decoder (mem d) (end_ d - List.length r2) (end_ d)
                            la lo (prec d) in
  pop d = (Ok (unscaled (prec d) (lo, la)), d') /\
  cursor_ok d' /\ unread d' = r2 /\
  (List.length r2 + 2 <= List.length (unread d))%nat.
Proof.
  intros Hok E1 E2 la lo d'.
  rewrite (pop_read_sample d Hok), E1. cbv zeta. rewrite E2.
  split; [reflexivity |].
  destruct (read_sample_some _ _ _ _ _ E1) as [s1 [Eu C1]].
  destruct (read_sample_some _ _ _ _ _ E2) as [s2 [Er C2]].
  rewrite Er, app_assoc in Eu.
  destruct (unread_after d (s1 ++ s2) r2 Hok Eu) as [_ [Hok' Eu']].
  split; [exact Hok' |]. split; [exact Eu' |].
  rewrite Eu, !length_app.
  pose proof (complete_sample_nonempty _ C1).
  pose proof (complete_sample_nonempty _ C2). lia.
Qed.

(** The loop of [decode] never runs out of the fuel [decode] gives it. *)
Lemma decode_loop_total {C} (push : Point -> C -> C) fuel : forall d c,
  cursor_ok d -> (List.length (unread d) < fuel)%nat ->
  exists r, decode_loop push fuel d c = Some r /\ r <> OutOfBounds.
Proof.
  induction fuel as [| fuel IH]; intros d c Hok Hf; [lia |].
  cbn [decode_loop]. destruct (empty d) eqn:Em; cbn [negb].
  - eexists. split; [reflexivity | discriminate].
  - rewrite (pop_read_sample d Hok).
    destruct (read_sample (unread d) 0 0) as [[v1 r1] |] eqn:E1.
    + cbv zeta. destruct (read_sample r1 0 0) as [[v2 r2] |] eqn:E2.
      * destruct (pop_two_samples d v1 r1 v2 r2 Hok E1 E2)
          as [_ [Hok' [Eu' Hl]]].
        apply IH; [exact Hok' |]. rewrite Eu'. lia.
      * eexists. split; [reflexivity | discriminate].
    + eexists. split; [reflexivity | discriminate].
Qed.

Lemma Shape5Decoder_new_ok buf precision :
  cursor_ok (Shape5Decoder_new buf precision) /\
  unread (Shape5Decoder_new buf precision) = buf.
Proof.
  split.
  - unfold cursor_ok. cbn. lia.
  - unfold unread. cbn. rewrite Nat.sub_0_r. apply firstn_all.
Qed.

(** The two overloads run the same loop: what is pushed does not depend on
    the container, nor on the capacity it started with. *)
Lemma data_vector_emplace_back p v :
  data (vector_emplace_back p v) = data v ++ [p].
Proof.
  unfold vector_emplace_back.
  now destruct (Nat.ltb (List.length (data v)) (capacity v)).
Qed.

Lemma data_reserve n v : data (reserve n v) = data v.
Proof. unfold reserve. now destruct (Nat.ltb (capacity v) n). Qed.

Lemma decode_loop_containers {C} `{container_t C} fuel : forall d v (c : C),
  data v = elements c ->
  decoded data (decode_loop vector_emplace_back fuel d v) =
  decoded elements (decode_loop emplace_back fuel d c).
Proof.
  induction fuel as [| fuel IH]; intros d v c E; [reflexivity |].
  cbn [decode_loop]. destruct (negb (empty d)).
  - destruct (pop d) as [[p | w |] d']; try reflexivity.
    apply IH. rewrite data_vector_emplace_back, elements_emplace_back.
    now rewrite E.
  - cbn. now rewrite E.
Qed.

(** ** encode *)

Lemma serialize_output number out :
  serialize number out = out ++ serialize number [].
Proof. unfold serialize. apply serialize_loop_output. Qed.

Lemma encode_fold precision points : forall st,
  output (fold_left (encode_step precision) points st) =
  output st ++
  flat_map point_bytes
    (deltas (last_lon st) (last_lat st) (map (scaled precision) points)).
Proof.
  induction points as [| p points IH]; intros st.
  - cbn. now rewrite app_nil_r.
  - cbn [fold_left map]. rewrite IH.
    cbn [encode_step output last_lon last_lat scaled deltas flat_map].
    unfold point_bytes. cbn [fst snd].
    rewrite (serialize_output _ (serialize _ _)), (serialize_output _ (output st)).
    now rewrite <- !app_assoc.
Qed.

Lemma encode_deltas points precision :
  encode points precision =
  flat_map point_bytes (deltas 0 0 (map (scaled precision) points)).
Proof. unfold encode. now rewrite encode_fold. Qed.

Lemma serialize_nonempty number : serialize number [] <> [].
Proof.
  unfold serialize. generalize (zigzag number) as z. generalize 7%nat as fuel.
  intros fuel z. rewrite serialize_loop_output. cbn [app].
  destruct fuel as [| fuel]; cbn [serialize_loop].
  - discriminate.
  - destruct (32 <=? z); [| discriminate].
    rewrite serialize_loop_output. discriminate.
Qed.

Lemma int_of_round_range x : in_int (int_of_round x).
Proof.
  unfold int_of_round, in_int.
  destruct (Prim2SF x) as [s | s | | s m e];
    try (unfold INT_MIN, INT_MAX; lia).
  cbv zeta.
  destruct (Z.leb_spec INT_MIN (round_half_away s m e));
    destruct (Z.leb_spec (round_half_away s m e) INT_MAX); cbn [andb];
    unfold INT_MIN, INT_MAX in *; lia.
Qed.

Lemma zigzag_safe_in_int d : zigzag_safe d -> in_int d.
Proof. unfold zigzag_safe, in_int, INT_MIN, INT_MAX. lia. Qed.

Lemma add32_sub32 a b : in_int a -> zigzag_safe (a - b) ->
  add32 b (unzigzag (zigzag (sub32 a b))) = a.
Proof.
  intros Ha Hd. unfold sub32.
  rewrite (wrap32_id (a - b)) by now apply zigzag_safe_in_int.
  rewrite unzigzag_zigzag by assumption.
  unfold add32. replace (b + (a - b)) with a by lia. now apply wrap32_id.
Qed.

(** The loop of [decode] on the bytes of a sequence of integer coordinates:
    every point comes back. *)
Lemma decode_loop_point_bytes {C} (push : Point -> C -> C) ints :
  forall d c fuel,
  cursor_ok d ->
  Forall (fun k => in_int (fst k) /\ in_int (snd k)) ints ->
  deltas_safe (lon d) (lat d) ints ->
  unread d = flat_map point_bytes (deltas (lon d) (lat d) ints) ->
  (List.length (unread d) < fuel)%nat ->
  decode_loop push fuel d c =
  Some (Ok (fold_left (fun c p => push p c) (map (unscaled (prec d)) ints) c)).
Proof.
  induction ints as [| [lo la] ints IH]; intros d c fuel Hok Hin Hs Eu Hf.
  - destruct fuel as [| fuel]; [lia |]. cbn [decode_loop].
    rewrite (unread_nil_empty d Hok Eu). reflexivity.
  - destruct fuel as [| fuel]; [lia |].
    cbn [deltas flat_map] in Eu. unfold point_bytes at 1 in Eu.
    cbn [fst snd] in Eu. rewrite <- app_assoc in Eu.
    cbn [deltas_safe] in Hs. destruct Hs as [Hla [Hlo Hs]].
    inversion Hin as [| k ks [Ilo Ila] Hin' E0]; subst. cbn [fst snd] in *.
    assert (Sla : zigzag_safe (sub32 la (lat d))).
    { unfold sub32. now rewrite wrap32_id by now apply zigzag_safe_in_int. }
    assert (Slo : zigzag_safe (sub32 lo (lon d))).
    { unfold sub32. now rewrite wrap32_id by now apply zigzag_safe_in_int. }
    assert (E1 : read_sample (unread d) 0 0 =
                 Some (zigzag (sub32 la (lat d)),
                       serialize (sub32 lo (lon d)) [] ++
                       flat_map point_bytes (deltas lo la ints))).
    { rewrite Eu. now apply read_sample_serialize. }
    pose proof (read_sample_serialize (sub32 lo (lon d))
                  (flat_map point_bytes (deltas lo la ints)) Slo) as E2.
    destruct (pop_two_samples d _ _ _ _ Hok E1 E2) as [Ep [Hok' [Eu' Hl]]].
    cbn [decode_loop].
    rewrite empty_false_unread; [| assumption |].
    2:{ rewrite Eu. intros F. apply app_eq_nil in F.
        exact (serialize_nonempty _ (proj1 F)). }
    cbn [negb]. rewrite Ep.
    rewrite (add32_sub32 la (lat d) Ila Hla) in *.
    rewrite (add32_sub32 lo (lon d) Ilo Hlo) in *.
    rewrite IH; try assumption.
    + reflexivity.
    + rewrite Eu'. lia.
Qed.

(** ** Truncated buffers *)

Lemma next_truncated d previous :
  cursor_ok d -> Forall (fun c => flagged c = true) (unread d) ->
  next previous d = (Throw MalformedStream, set_begin (end_ d) d).
Proof.
  intros Hok Hf. rewrite (next_read_sample d previous Hok).
  now rewrite (proj2 (read_sample_none _ 0 0) Hf).
Qed.

Lemma pop_truncated_latitude d :
  cursor_ok d -> Forall (fun c => flagged c = true) (unread d) ->
  pop d = (Throw MalformedStream, set_begin (end_ d) d).
Proof.
  intros Hok Hf. rewrite (pop_read_sample d Hok).
  now rewrite (proj2 (read_sample_none _ 0 0) Hf).
Qed.

Lemma pop_truncated_longitude d smp tail :
  cursor_ok d -> complete_sample smp = true ->
  Forall (fun c => flagged c = true) tail ->
  unread d = smp ++ tail ->
  exists v,
    read_sample (smp ++ tail) 0 0 = Some (v, tail) /\
    pop d = (Throw MalformedStream,
             mkShape5Decoder (mem d) (end_ d) (end_ d)
               (add32 (lat d) (unzigzag v)) (lon d) (prec d)).
Proof.
  intros Hok Hc Hf Eu.
  destruct (read_sample_complete smp tail 0 0 Hc) as [v Ev].
  exists v. split; [exact Ev |].
  rewrite (pop_read_sample d Hok), Eu, Ev. cbv zeta.
  now rewrite (proj2 (read_sample_none _ 0 0) Hf).
Qed.

Lemma decode_loop_truncated {C} (push : Point -> C -> C) fuel d c :
  cursor_ok d -> unread d <> [] ->
  Forall (fun c => flagged c = true) (unread d) ->
  decode_loop push (S fuel) d c = Some (Throw MalformedStream).
Proof.
  intros Hok Hne Hf. cbn [decode_loop].
  rewrite (empty_false_unread d Hok Hne). cbn [negb].
  now rewrite (pop_truncated_latitude d Hok Hf).
Qed.

(** ** Buffers that decode *)

Lemma decode_loop_ok_samples {C} `{container_t C} fuel : forall d (c c' : C),
  cursor_ok d ->
  decode_loop emplace_back fuel d c = Some (Ok c') ->
  exists ss pts,
    unread d = List.concat ss /\
    Forall (fun s => complete_sample s = true) ss /\
    elements c' = elements c ++ pts /\
    List.length ss = (2 * List.length pts)%nat.
Proof.
  induction fuel as [| fuel IH]; intros d c c' Hok Hd; [discriminate |].
  cbn [decode_loop] in Hd. destruct (empty d) eqn:Em; cbn [negb] in Hd.
  - injection Hd as <-. exists [], []. rewrite (empty_true_unread d Em).
    repeat split; [constructor | now rewrite app_nil_r].
  - rewrite (pop_read_sample d Hok) in Hd.
    destruct (read_sample (unread d) 0 0) as [[v1 r1] |] eqn:E1;
      [| discriminate].
    cbv zeta in Hd.
    destruct (read_sample r1 0 0) as [[v2 r2] |] eqn:E2; [| discriminate].
    destruct (pop_two_samples d v1 r1 v2 r2 Hok E1 E2) as [_ [Hok' [Eu' _]]].
    destruct (IH _ _ _ Hok' Hd) as [ss [pts [Es [Hc [Ee El]]]]].
    destruct (read_sample_some _ _ _ _ _ E1) as [s1 [Eu C1]].
    destruct (read_sample_some _ _ _ _ _ E2) as [s2 [Er C2]].
    rewrite elements_emplace_back, <- app_assoc in Ee.
    exists (s1 :: s2 :: ss). eexists. repeat split.
    + cbn [List.concat]. now rewrite Eu, Er, <- Es, Eu'.
    + now repeat constructor.
    + exact Ee.
    + cbn [List.length app]. lia.
Qed.

(** The split of a buffer into complete samples is unique. *)
Lemma complete_sample_prefix s : forall s' r r',
  complete_sample s = true -> complete_sample s' = true ->
  s ++ r = s' ++ r' -> s = s' /\ r = r'.
Proof.
  intros s' r r' Hs Hs' E.
  destruct (read_sample_complete s r 0 0 Hs) as [v Ev].
  destruct (read_sample_complete s' r' 0 0 Hs') as [v' Ev'].
  rewrite E, Ev' in Ev. injection Ev as _ Er. subst r'.
  split; [| reflexivity]. now apply app_inv_tail in E.
Qed.

Lemma concat_samples_unique ss : forall ss',
  Forall (fun s => complete_sample s = true) ss ->
  Forall (fun s => complete_sample s = true) ss' ->
  List.concat ss = List.concat ss' -> ss = ss'.
Proof.
  induction ss as [| s ss IH]; intros ss' H H' E.
  - destruct ss' as [| s' ss']; [reflexivity |].
    inversion H' as [| ? ? Hs' _]; subst.
    apply complete_sample_nonempty in Hs'.
    cbn [List.concat] in E. symmetry in E. apply app_eq_nil in E.
    destruct E as [-> _]. simpl in Hs'. lia.
  - inversion H as [| ? ? Hs Hss]; subst.
    destruct ss' as [| s' ss'].
    + apply complete_sample_nonempty in Hs.
      cbn [List.concat] in E. apply app_eq_nil in E.
      destruct E as [-> _]. simpl in Hs. lia.
    + inversion H' as [| ? ? Hs' Hss']; subst. cbn [List.concat] in E.
      destruct (complete_sample_prefix _ _ _ _ Hs Hs' E) as [-> E'].
      f_equal. now apply IH.
Qed.

(** ** The cursor stays inside the buffer *)

Lemma pop_cursor d :
  cursor_ok d ->
  fst (pop d) <> OutOfBounds /\
  cursor_ok (snd (pop d)) /\
  (begin d <= begin (snd (pop d)))%nat /\
  end_ (snd (pop d)) = end_ d /\
  mem (snd (pop d)) = mem d /\
  unread (snd (pop d)) = skipn (begin (snd (pop d)) - begin d) (unread d).
Proof.
  intros Hok. pose proof (unread_length d Hok) as L.
  assert (T : forall la lo,
    let d' := mkShape5Decoder (mem d) (end_ d) (end_ d) la lo (prec d) in
    cursor_ok d' /\ (begin d <= begin d')%nat /\ end_ d' = end_ d /\
    mem d' = mem d /\ unread d' = skipn (begin d' - begin d) (unread d)).
  { intros la lo d'. destruct Hok as [Hb He].
    repeat split; try (cbn; lia).
    rewrite skipn_all2 by (cbn; lia).
    now apply unread_at_end. }
  rewrite (pop_read_sample d Hok).
  destruct (read_sample (unread d) 0 0) as [[v1 r1] |] eqn:E1.
  - cbv zeta. destruct (read_sample r1 0 0) as [[v2 r2] |] eqn:E2.
    + destruct (pop_two_samples d v1 r1 v2 r2 Hok E1 E2)
        as [_ [Hok' [Eu' Hl]]].
      cbn [fst snd]. split; [discriminate |]. split; [exact Hok' |].
      destruct (read_sample_some _ _ _ _ _ E1) as [s1 [Eu C1]].
      destruct (read_sample_some _ _ _ _ _ E2) as [s2 [Er C2]].
      rewrite Er, app_assoc in Eu.
      destruct (unread_after d _ _ Hok Eu) as [P _].
      cbn [begin end_ mem]. repeat split; try lia.
      rewrite Eu', P, Eu.
      replace (begin d + List.length (s1 ++ s2) - begin d)%nat
        with (List.length (s1 ++ s2)) by lia.
      now rewrite skipn_app, skipn_all, Nat.sub_diag.
    + cbn [fst snd]. split; [discriminate | apply T].
  - cbn [fst snd]. split; [discriminate | apply T].
Qed.

(** [next] steps over exactly the bytes of the sample it returns. *)
Lemma next_cursor d previous :
  cursor_ok d ->
  match next previous d with
  | (Ok _, d') =>
      exists smp,
        complete_sample smp = true /\
        unread d = smp ++ unread d' /\
        begin d' = (begin d + List.length smp)%nat /\
        end_ d' = end_ d
  | (Throw what, d') =>
      what = MalformedStream /\ begin d' = end_ d' /\ end_ d' = end_ d /\
      Forall (fun c => flagged c = true) (unread d)
  | (OutOfBounds, _) => False
  end.
Proof.
  intros Hok. rewrite (next_read_sample d previous Hok).
  destruct (read_sample (unread d) 0 0) as [[v rest] |] eqn:E.
  - destruct (read_sample_some _ _ _ _ _ E) as [smp [Eu Hc]].
    destruct (unread_after d smp rest Hok Eu) as [P [_ Er]].
    exists smp. rewrite Er. cbn [begin end_ set_begin]. auto.
  - apply read_sample_none in E. cbn [begin end_ set_begin]. auto.
Qed.

Lemma pops_cursor n : forall d,
  cursor_ok d ->
  cursor_ok (pops n d) /\ end_ (pops n d) = end_ d /\
  mem (pops n d) = mem d /\ (begin d <= begin (pops n d))%nat.
Proof.
  induction n as [| n IH]; intros d Hok.
  - cbn. repeat split; try apply Hok. lia.
  - destruct (IH d Hok) as [Hn [En [Mn Bn]]].
    destruct (pop_cursor (pops n d) Hn) as [_ [Hok' [Hb [He [Hm _]]]]].
    change (pops (S n) d) with (snd (pop (pops n d))).
    repeat split; try apply Hok'; try congruence. lia.
Qed.

(** ** Rounding *)

Lemma Qpower_2_nonneg e : 0 <= e -> (Qpower 2 e == inject_Z (2 ^ e))%Q.
Proof. intros H. symmetry. now apply Zpower_Qpower. Qed.

Lemma Qpower_2_neg e :
  e < 0 -> exists N : positive, 2 ^ (- e) = Z.pos N /\ (Qpower 2 e == 1 # N)%Q.
Proof.
  intros H. destruct e as [| p | p]; try lia.
  assert (P : 0 < 2 ^ Z.pos p) by (apply Z.pow_pos_nonneg; lia).
  change (- Z.neg p) with (Z.pos p).
  destruct (2 ^ Z.pos p) as [| N | N] eqn:E; try lia.
  exists N. split; [reflexivity |].
  change (Qpower 2 (Z.neg p)) with (/ Qpower 2 (Z.pos p))%Q.
  rewrite (Qpower_2_nonneg (Z.pos p)) by lia. rewrite E. reflexivity.
Qed.

Lemma nearest_unsigned m e :
  (0 < inject_Z (Z.pos m) * Qpower 2 e)%Q /\
  (Qabs (inject_Z (nearest m e) - inject_Z (Z.pos m) * Qpower 2 e) <= 1 # 2)%Q /\
  ((Qabs (inject_Z (nearest m e) - inject_Z (Z.pos m) * Qpower 2 e) == 1 # 2)%Q ->
   (inject_Z (Z.pos m) * Qpower 2 e < inject_Z (nearest m e))%Q).
Proof.
  unfold nearest. destruct (Z.leb_spec 0 e) as [He | He].
  - rewrite Qpower_2_nonneg by assumption.
    rewrite <- inject_Z_mult.
    assert (P : 0 < 2 ^ e) by (apply Z.pow_pos_nonneg; lia).
    split; [| split].
    + change 0%Q with (inject_Z 0). rewrite <- Zlt_Qlt. lia.
    + unfold Qminus. rewrite Qplus_opp_r. discriminate.
    + unfold Qminus. rewrite Qplus_opp_r. discriminate.
  - destruct (Qpower_2_neg e He) as [N [EN EQ]].
    rewrite EQ, EN. cbv zeta.
    pose proof (Z.div_mod (Z.pos m) (Z.pos N) ltac:(lia)) as DM.
    pose proof (Z.mod_pos_bound (Z.pos m) (Z.pos N) ltac:(lia)) as MB.
    set (q := Z.pos m / Z.pos N) in *. set (r := Z.pos m mod Z.pos N) in *.
    split; [| split].
    + reflexivity.
    + destruct (Z.leb_spec (Z.pos N) (2 * r)).
      * unfold Qle, Qabs, Qminus, Qplus, Qopp, Qmult, inject_Z. cbn [Qnum Qden].
        lia.
      * unfold Qle, Qabs, Qminus, Qplus, Qopp, Qmult, inject_Z. cbn [Qnum Qden]. lia.
    + destruct (Z.leb_spec (Z.pos N) (2 * r)).
      * intros _. unfold Qlt, Qmult, inject_Z. cbn [Qnum Qden]. lia.
      * unfold Qeq, Qlt, Qabs, Qminus, Qplus, Qopp, Qmult, inject_Z. cbn [Qnum Qden]. lia.
Qed.

Lemma Qabs_opp_minus a b : (Qabs (- a - - b) == Qabs (a - b))%Q.
Proof.
  rewrite <- (Qabs_opp (a - b)). apply Qabs_wd. ring.
Qed.

Lemma round_half_away_nearest s m e :
  let k := inject_Z (round_half_away s m e) in
  let v := (if s then - (inject_Z (Z.pos m) * Qpower 2 e)
            else inject_Z (Z.pos m) * Qpower 2 e)%Q in
  (Qabs (k - v) <= 1 # 2)%Q /\
  ((Qabs (k - v) == 1 # 2)%Q -> (Qabs v < Qabs k)%Q).
Proof.
  destruct (nearest_unsigned m e) as [Hv [Hn Ht]].
  unfold round_half_away. destruct s; cbv zeta.
  - rewrite inject_Z_opp, Qabs_opp_minus, !Qabs_opp.
    split; [exact Hn |]. intros E. specialize (Ht E).
    rewrite (Qabs_pos (_ * _)) by now apply Qlt_le_weak.
    rewrite Qabs_pos; [exact Ht |].
    apply Qlt_le_weak. now apply Qlt_trans with (2 := Ht).
  - split; [exact Hn |]. intros E. specialize (Ht E).
    rewrite (Qabs_pos (_ * _)) by now apply Qlt_le_weak.
    rewrite Qabs_pos; [exact Ht |].
    apply Qlt_le_weak. now apply Qlt_trans with (2 := Ht).
Qed.

Lemma int_of_round_nearest y :
  fits_int y ->
  (Qabs (inject_Z (int_of_round y) - Q_of_double y) <= 1 # 2)%Q /\
  ((Qabs (inject_Z (int_of_round y) - Q_of_double y) == 1 # 2)%Q ->
   (Qabs (Q_of_double y) < Qabs (inject_Z (int_of_round y)))%Q).
Proof.
  unfold fits_int, is_finite, int_of_round, Q_of_double.
  destruct (Prim2SF y) as [s | s | | s m e]; intros [Hf Hr];
    try discriminate.
  - split; [discriminate | intros E; discriminate E].
  - cbv zeta in *.
    destruct (round_half_away_nearest s m e) as [Hn Ht]. cbv zeta in Hn, Ht.
    set (k := round_half_away s m e) in *.
    set (v := (if s then - (inject_Z (Z.pos m) * Qpower 2 e)
               else inject_Z (Z.pos m) * Qpower 2 e)%Q) in *.
    assert (Hk : INT_MIN <= k <= INT_MAX).
    { apply Qabs_Qle_condition in Hn. destruct Hn as [Hl Hu], Hr as [Rl Ru].
      assert (A : (inject_Z k <= inject_Z INT_MAX + (1 # 2))%Q).
      { apply Qle_trans with (v + (1 # 2))%Q.
        - apply Qplus_le_l with (- v)%Q.
          setoid_replace (v + (1 # 2) + - v)%Q with (1 # 2)%Q by ring.
          exact Hu.
        - now apply Qplus_le_l. }
      assert (B : (inject_Z INT_MIN + - (1 # 2) <= inject_Z k)%Q).
      { apply Qle_trans with (v + - (1 # 2))%Q.
        - now apply Qplus_le_l.
        - apply Qplus_le_l with (- v)%Q.
          setoid_replace (v + - (1 # 2) + - v)%Q with (- (1 # 2))%Q by ring.
          exact Hl. }
      unfold INT_MIN, INT_MAX in *.
      unfold Qle, Qplus, Qminus, Qopp, inject_Z in A, B. cbn [Qnum Qden] in A, B.
      lia. }
    destruct (Z.leb_spec INT_MIN k); [| lia].
    destruct (Z.leb_spec k INT_MAX); [| lia].
    cbn [andb]. split; assumption.
Qed.

(** ** More on the loop of decode *)

Lemma fold_left_push_list (pts : list Point) : forall c,
  fold_left (fun c p => c ++ [p]) pts c = c ++ pts.
Proof.
  induction pts as [| p pts IH]; intros c; cbn [fold_left].
  - now rewrite app_nil_r.
  - rewrite IH. now rewrite <- app_assoc.
Qed.

Lemma decode_loop_throw {C} (push : Point -> C -> C) fuel : forall d c w,
  cursor_ok d ->
  decode_loop push fuel d c = Some (Throw w) -> w = MalformedStream.
Proof.
  induction fuel as [| fuel IH]; intros d c w Hok Hd; [discriminate |].
  cbn [decode_loop] in Hd. destruct (empty d); cbn [negb] in Hd;
    [discriminate |].
  rewrite (pop_read_sample d Hok) in Hd.
  destruct (read_sample (unread d) 0 0) as [[v1 r1] |] eqn:E1;
    [| congruence].
  cbv zeta in Hd.
  destruct (read_sample r1 0 0) as [[v2 r2] |] eqn:E2; [| congruence].
  destruct (pop_two_samples d v1 r1 v2 r2 Hok E1 E2) as [_ [Hok' _]].
  exact (IH _ _ _ Hok' Hd).
Qed.

(** [decode] returns a container or throws the error of [next]. *)
Lemma decode_outcome {C} `{container_t C} encoded precision :
  (exists c : C, decode encoded precision = Some (Ok c)) \/
  decode (C := C) encoded precision = Some (Throw MalformedStream).
Proof.
  unfold decode. cbv zeta.
  destruct (Shape5Decoder_new_ok encoded precision) as [Hok Eu].
  destruct (decode_loop_total emplace_back (S (List.length encoded))
              (Shape5Decoder_new encoded precision) container_new Hok)
    as [r [Er Hr]].
  { rewrite Eu. lia. }
  rewrite Er. destruct r as [c | w |].
  - left. now exists c.
  - right. now rewrite (decode_loop_throw _ _ _ _ _ Hok Er).
  - congruence.
Qed.

Lemma capacity_vector_emplace_back p v :
  (capacity v <= capacity (vector_emplace_back p v))%nat.
Proof.
  unfold vector_emplace_back.
  destruct (Nat.ltb (List.length (data v)) (capacity v)); cbn [capacity];
    lia.
Qed.

Lemma decode_loop_capacity fuel : forall d v v',
  decode_loop vector_emplace_back fuel d v = Some (Ok v') ->
  (capacity v <= capacity v')%nat.
Proof.
  induction fuel as [| fuel IH]; intros d v v' Hd; [discriminate |].
  cbn [decode_loop] in Hd. destruct (negb (empty d)).
  - destruct (pop d) as [[p | w |] d']; try discriminate.
    apply IH in Hd. pose proof (capacity_vector_emplace_back p v). lia.
  - injection Hd as <-. lia.
Qed.

(** The guard of the loop of [serialize], chunk by chunk. *)
Lemma continuation_guard z i :
  0 <= z -> (i < continuation_count z)%nat ->
  32 <= Z.shiftr z (5 * Z.of_nat i).
Proof.
  intros Hz Hi. unfold continuation_count in Hi.
  destruct (Z.eq_dec z 0) as [-> | Hnz]; [simpl in Hi; lia |].
  pose proof (Z.log2_nonneg z) as Hl.
  assert (Hd : 0 <= Z.log2 z / 5) by (apply Z.div_pos; lia).
  assert (Hq : Z.of_nat i + 1 <= Z.log2 z / 5) by lia.
  pose proof (Z.mul_div_le (Z.log2 z) 5 ltac:(lia)) as Hm.
  rewrite Z.shiftr_div_pow2 by lia.
  apply Z.div_le_lower_bound; [apply Z.pow_pos_nonneg; lia |].
  change 32 with (2 ^ 5). rewrite <- Z.pow_add_r by lia.
  apply Z.log2_le_pow2; lia.
Qed.

Lemma last_chunk_range z :
  0 <= z -> 0 <= Z.shiftr z (5 * Z.of_nat (continuation_count z)) < 32.
Proof.
  intros H. set (n := continuation_count z).
  rewrite Z.shiftr_div_pow2 by lia. split; [apply Z.div_pos; lia |].
  apply Z.div_lt_upper_bound; [lia |].
  destruct (Z.eq_dec z 0) as [-> | Hz]; [lia |].
  change 32 with (2 ^ 5). rewrite <- Z.pow_add_r by lia.
  apply Z.log2_lt_pow2; [lia |].
  unfold n, continuation_count.
  rewrite Z2Nat.id by (apply Z.div_pos; [apply Z.log2_nonneg | lia]).
  pose proof (Z.mul_succ_div_gt (Z.log2 z) 5 ltac:(lia)). lia.
Qed.

(** ** Fuel *)

(** Seven turns are enough for every [int]: more fuel changes nothing. *)
Lemma serialize_loop_fuel fuel number out :
  in_int number -> (7 <= fuel)%nat ->
  serialize_loop fuel number out = serialize_loop 7 number out.
Proof.
  intros Hi Hf. destruct (Z_lt_le_dec number 0) as [Hneg | Hpos].
  - destruct fuel as [| fuel]; [lia |]. cbn [serialize_loop].
    destruct (Z.leb_spec 32 number); [lia | reflexivity].
  - assert (B : 2 ^ 35 <= 2 ^ (5 * Z.of_nat fuel))
      by (apply Z.pow_le_mono_r; lia).
    unfold in_int, INT_MIN, INT_MAX in Hi.
    rewrite !serialize_loop_varint5;
      [reflexivity | change (5 * Z.of_nat 7) with 35; lia | lia].
Qed.

Lemma zigzag_in_int number : in_int (zigzag number).
Proof. unfold zigzag. destruct (number <? 0); apply wrap32_range. Qed.

Lemma serialize_fuel fuel number out :
  (7 <= fuel)%nat ->
  serialize_loop fuel (zigzag number) out = serialize number out.
Proof.
  intros Hf. unfold serialize.
  apply serialize_loop_fuel; [apply zigzag_in_int | exact Hf].
Qed.

(** ** Buffers of complete samples *)

Lemma complete_sample_last s :
  complete_sample s = true ->
  exists pre c, s = pre ++ [c] /\ flagged c = false.
Proof.
  induction s as [| a s IH]; [discriminate |].
  cbn [complete_sample]. destruct (flagged a) eqn:F.
  - intros H. destruct (IH H) as [pre [c [-> Fc]]].
    now exists (a :: pre), c.
  - destruct s; [| discriminate]. intros _. now exists [], a.
Qed.

Lemma concat_samples_last ss l c :
  Forall (fun s => complete_sample s = true) ss ->
  List.concat ss = l ++ [c] -> flagged c = false.
Proof.
  intros Hs E. destruct ss as [| s0 ss0] using rev_ind.
  - destruct l; discriminate.
  - apply Forall_app in Hs. destruct Hs as [_ Hs].
    inversion Hs as [| ? ? Hc _]; subst.
    destruct (complete_sample_last _ Hc) as [pre [c' [-> Fc]]].
    rewrite concat_app in E. cbn [List.concat] in E.
    rewrite app_nil_r, app_assoc in E.
    apply app_inj_tail in E. destruct E as [_ <-]. exact Fc.
Qed.

(** The loop of [decode] succeeds on an even number of complete samples. *)
Lemma decode_loop_even {C} `{container_t C} n : forall ss d (c : C) fuel,
  cursor_ok d ->
  unread d = List.concat ss ->
  Forall (fun s => complete_sample s = true) ss ->
  List.length ss = (2 * n)%nat ->
  (List.length (unread d) < fuel)%nat ->
  exists c', decode_loop emplace_back fuel d c = Some (Ok c') /\
             List.length (elements c') = (List.length (elements c) + n)%nat.
Proof.
  induction n as [| n IH]; intros ss d c fuel Hok Eu Hs Hl Hf.
  - destruct ss; [| discriminate]. cbn [List.concat] in Eu.
    destruct fuel as [| fuel]; [lia |]. cbn [decode_loop].
    rewrite (unread_nil_empty d Hok Eu). exists c. split; [reflexivity | lia].
  - destruct ss as [| s1 [| s2 ss]]; try (cbn in Hl; lia).
    inversion Hs as [| ? ? C1 Hs1]; subst.
    inversion Hs1 as [| ? ? C2 Hs2]; subst.
    cbn [List.concat] in Eu.
    destruct (read_sample_complete s1 (s2 ++ List.concat ss) 0 0 C1)
      as [v1 E1].
    destruct (read_sample_complete s2 (List.concat ss) 0 0 C2) as [v2 E2].
    rewrite <- Eu in E1.
    destruct (pop_two_samples d _ _ _ _ Hok E1 E2) as [Ep [Hok' [Eu' Hlen]]].
    destruct fuel as [| fuel]; [lia |]. cbn [decode_loop].
    rewrite empty_false_unread; [| assumption |].
    2:{ rewrite Eu. apply complete_sample_nonempty in C1.
        destruct s1; [simpl in C1; lia | discriminate]. }
    cbn [negb]. rewrite Ep.
    edestruct (IH ss) as [c' [Ed El]]; [exact Hok' | exact Eu' | exact Hs2 | | |].
    + cbn in Hl. lia.
    + rewrite Eu'. instantiate (1 := fuel). lia.
    + exists c'. split; [exact Ed |].
      rewrite El, elements_emplace_back, length_app. cbn. lia.
Qed.

(** ** What decode returns *)

Lemma decoded_throw {C} (f : C -> list Point) r w :
  decoded f r = Some (Throw w) -> r = Some (Throw w).
Proof.
  destruct r as [[c | w' |] |]; cbn; intros E; try discriminate.
  now injection E as ->.
Qed.

Lemma decode_vector_decoded encoded precision :
  decoded data (decode_vector encoded precision) =
  decode (C := list Point) encoded precision.
Proof.
  unfold decode_vector, decode. cbv zeta.
  rewrite (decode_loop_containers (C := list Point) _ _ _ []).
  - unfold decoded. cbn [elements list_container].
    destruct (decode_loop _ _ _ _) as [[c | w |] |]; reflexivity.
  - now rewrite data_reserve.
Qed.

Lemma decode_ok_samples {C} `{container_t C} buf precision (c : C) :
  decode buf precision = Some (Ok c) ->
  exists ss,
    buf = List.concat ss /\
    Forall (fun s => complete_sample s = true) ss /\
    List.length ss = (2 * List.length (elements c))%nat.
Proof.
  intros Hd. unfold decode in Hd. cbv zeta in Hd.
  destruct (Shape5Decoder_new_ok buf precision) as [Hn En].
  destruct (decode_loop_ok_samples _ _ _ _ Hn Hd)
    as [ss [pts [Es [Hs [Ee El]]]]].
  exists ss. rewrite En in Es. rewrite elements_new in Ee. cbn [app] in Ee.
  rewrite Ee. auto.
Qed.

(** A buffer whose last byte carries the continuation flag does not decode. *)
Lemma decode_flagged_end {C} `{container_t C} l c precision :
  flagged c = true ->
  decode (C := C) (l ++ [c]) precision = Some (Throw MalformedStream).
Proof.
  intros F.
  destruct (decode_outcome (C := C) (l ++ [c]) precision)
    as [[r Hd] | Hd]; [| exact Hd].
  destruct (decode_ok_samples _ _ _ Hd) as [ss [Es [Hs _]]].
  symmetry in Es. rewrite (concat_samples_last ss l c Hs Es) in F.
  discriminate.
Qed.

Lemma decode_encode_ints points precision precision' :
  deltas_safe 0 0 (map (scaled precision) points) ->
  decode (C := list Point) (encode points precision) precision' =
  Some (Ok (map (unscaled precision') (map (scaled precision) points))).
Proof.
  intros Hs. unfold decode. cbv zeta.
  destruct (Shape5Decoder_new_ok (encode points precision) precision')
    as [Hok Eu].
  rewrite (decode_loop_point_bytes emplace_back (map (scaled precision) points));
    try assumption.
  - cbn [emplace_back list_container container_new prec Shape5Decoder_new].
    now rewrite fold_left_push_list.
  - apply Forall_forall. intros k Hk. apply in_map_iff in Hk.
    destruct Hk as [p [<- _]]. split; apply int_of_round_range.
  - rewrite Eu. apply encode_deltas.
  - rewrite Eu. lia.
Qed.

(** * The properties of the codec *)

(** C1. The round trip fails on the code at the seven digits the header
    offers ([USE_7DIGITS_DEFAULT]). The point (lon -122.4, lat 38.58) has
    scaled coordinates, -1224000000 and 385800000, that fit in an [int];
    [encode] at precision 10000000 returns "_sjz~U>" for it, and both
    overloads of [decode] at 1e-7 return one point whose latitude is within
    half of the precision of the original but whose longitude is -16 * 1e-7,
    more than 122 degrees away. Whatever the signedness of [char]. *)
Theorem roundtrip_seven_digits :
  let p := mkPoint (-122.4) 38.58 in
  let q := mkPoint (double_of_int (-16) * 1e-7)
                   (double_of_int 385800000 * 1e-7) in
  representable 10000000 p /\
  scaled 10000000 p = (-1224000000, 385800000) /\
  encode [p] 10000000 = list_ascii_of_string "_sjz~U>" /\
  decode (C := list Point) (encode [p] 10000000) 1e-7 = Some (Ok [q]) /\
  decoded data (decode_vector (encode [p] 10000000) 1e-7) = Some (Ok [q]) /\
  (Qabs (Q_of_double (second q) - Q_of_double (second p)) <=
   Q_of_double 1e-7 / 2)%Q /\
  (Q_of_double 1e-7 / 2 <
   Qabs (Q_of_double (first q) - Q_of_double (first p)))%Q /\
  (122 <? abs (first q - first p))%float = true.
Proof. by_computation. Qed.

(** C2. A new decoder has both accumulators at zero. For every decoder,
    [pop] first runs [next] on the latitude accumulator and stores the
    result, then runs [next] on the longitude accumulator, and returns the
    point (longitude * precision, latitude * precision); a failure of the
    first [next] is the outcome of [pop], with the longitude untouched. On
    a buffer that starts with two complete samples, the first one moves the
    latitude and the second one the longitude. *)
Theorem pop_latitude_then_longitude :
  (forall buf precision,
     lat (Shape5Decoder_new buf precision) = 0 /\
     lon (Shape5Decoder_new buf precision) = 0) /\
  (forall d,
     pop d =
     match next (lat d) d with
     | (Ok v, d1) =>
         match next (lon d1) (set_lat v d1) with
         | (Ok w, d2) =>
             (Ok (mkPoint (double_of_int w * prec d2)
                          (double_of_int (lat d2) * prec d2)),
              set_lon w d2)
         | (Throw what, d2) => (Throw what, d2)
         | (OutOfBounds, d2) => (OutOfBounds, d2)
         end
     | (Throw what, d1) => (Throw what, d1)
     | (OutOfBounds, d1) => (OutOfBounds, d1)
     end) /\
  (forall d v1 r1 v2 r2,
     cursor_ok d ->
     read_sample (unread d) 0 0 = Some (v1, r1) ->
     read_sample r1 0 0 = Some (v2, r2) ->
     pop d =
     (Ok (mkPoint
            (double_of_int (add32 (lon d) (unzigzag v2)) * prec d)
            (double_of_int (add32 (lat d) (unzigzag v1)) * prec d)),
      mkShape5Decoder (mem d) (end_ d - List.length r2) (end_ d)
        (add32 (lat d) (unzigzag v1)) (add32 (lon d) (unzigzag v2))
        (prec d))).
Proof.
  split; [| split].
  - intros buf precision. split; reflexivity.
  - intros d. unfold pop, bind, gets, modify, ret.
    destruct (next (lat d) d) as [[v | what |] d1]; reflexivity.
  - intros d v1 r1 v2 r2 Hok E1 E2.
    exact (proj1 (pop_two_samples d v1 r1 v2 r2 Hok E1 E2)).
Qed.

(** C3. [encode] emits, point by point and in order, the latitude delta and
    then the longitude delta of the integer coordinates against those of
    the previous point, zero before the first; a delta is a plain difference
    whenever that is an [int]; an integer coordinate is the integer nearest
    to the double product of coordinate and precision, the one away from
    zero when two are as near; and the second of the points (0, 0),
    (0.00001, 0.00002) at precision 100000 is emitted as the deltas
    latitude 2, longitude 1. *)
Theorem encode_serializes_deltas :
  (forall points precision,
     encode points precision =
     flat_map (fun dl => serialize (fst dl) [] ++ serialize (snd dl) [])
       (deltas 0 0 (map (scaled precision) points))) /\
  (forall prev_lon prev_lat lon lat rest,
     deltas prev_lon prev_lat ((lon, lat) :: rest) =
     (sub32 lat prev_lat, sub32 lon prev_lon) :: deltas lon lat rest) /\
  (forall a b, in_int (a - b) -> sub32 a b = a - b) /\
  (forall y,
     fits_int y ->
     (Qabs (inject_Z (int_of_round y) - Q_of_double y) <= 1 # 2)%Q /\
     ((Qabs (inject_Z (int_of_round y) - Q_of_double y) == 1 # 2)%Q ->
      (Qabs (Q_of_double y) < Qabs (inject_Z (int_of_round y)))%Q)) /\
  (deltas 0 0 (map (scaled 100000) [mkPoint 0 0; mkPoint 0.00001 0.00002]) =
     [(0, 0); (2, 1)] /\
   encode [mkPoint 0 0; mkPoint 0.00001 0.00002] 100000 =
     serialize 0 [] ++ serialize 0 [] ++ serialize 2 [] ++ serialize 1 []).
Proof.
  split; [| split; [| split; [| split]]].
  - intros points precision. apply encode_deltas.
  - reflexivity.
  - intros a b H. unfold sub32. now apply wrap32_id.
  - exact int_of_round_nearest.
  - split; vm_compute; reflexivity.
Qed.

(** C4. When every byte from the cursor to the end of the buffer carries the
    continuation flag (and there is at least one), decoding throws
    "Bad encoded polyline" and returns no point: both overloads of [decode]
    on a buffer that ends so, whatever comes before; [next] and [pop] on
    any decoder whose unread bytes are such; and [pop] when its longitude
    sample is cut that way. *)
Theorem truncated_sample_throws buf precision :
  buf <> [] ->
  Forall (fun c => flagged c = true) buf ->
  (forall before,
     decode (C := list Point) (before ++ buf) precision =
       Some (Throw MalformedStream) /\
     decode_vector (before ++ buf) precision =
       Some (Throw MalformedStream)) /\
  (forall d previous,
     cursor_ok d -> unread d = buf ->
     next previous d = (Throw MalformedStream, set_begin (end_ d) d) /\
     pop d = (Throw MalformedStream, set_begin (end_ d) d)) /\
  (forall d smp,
     cursor_ok d -> complete_sample smp = true -> unread d = smp ++ buf ->
     fst (pop d) = Throw MalformedStream).
Proof.
  intros Hne Hf. split; [| split].
  - intros before.
    destruct (exists_last Hne) as [l [c ->]].
    apply Forall_app in Hf. destruct Hf as [_ Hc].
    inversion Hc as [| ? ? Fc _]; subst.
    assert (D : decode (C := list Point) (before ++ l ++ [c]) precision =
                Some (Throw MalformedStream)).
    { rewrite app_assoc. now apply decode_flagged_end. }
    split; [exact D |].
    apply (decoded_throw data). now rewrite decode_vector_decoded.
  - intros d previous Hd Ed. rewrite <- Ed in Hf. split.
    + now apply next_truncated.
    + now apply pop_truncated_latitude.
  - intros d smp Hd Hc Ed.
    destruct (pop_truncated_longitude d smp buf Hd Hc Hf Ed) as [v [_ Ep]].
    now rewrite Ep.
Qed.

(** C5. Zig-zag symmetry: for every integer [d] between -1,000,000 and
    1,000,000, the zig-zag step of the encoder followed by the inverse step
    of the decoder gives [d] back. *)
Theorem zigzag_symmetry d :
  -1000000 <= d <= 1000000 -> unzigzag (zigzag d) = d.
Proof.
  intros H. apply unzigzag_zigzag. unfold zigzag_safe. lia.
Qed.

(** C6. [serialize] fails on an [int] delta below -2^30, one that valid
    coordinates give at the seven digits the header offers: the longitude
    -122.4 of the point (lon -122.4, lat 38.58) scales to -1224000000, an
    [int], which is its delta from zero. The zig-zag step, computed in 32
    bits, yields the negative number -1846967297, the loop
    [while (number >= 0x20)] does not run, and the single byte 62 is
    appended: a byte below 63, and not the seven bytes "~~_r}gA" that carry
    the 5-bit chunks of the zig-zagged value 2447999999. It is the last
    byte of the buffer [encode] returns. *)
Theorem serialize_seven_digits :
  let p := mkPoint (-122.4) 38.58 in
  representable 10000000 p /\
  deltas 0 0 (map (scaled 10000000) [p]) = [(385800000, -1224000000)] /\
  in_int (-1224000000) /\
  zigzag (-1224000000) = -1846967297 /\
  serialize (-1224000000) [] = [char_of_int 62] /\
  code (char_of_int 62) = 62 /\
  ~ Forall printable (serialize (-1224000000) []) /\
  Z.lnot (Z.shiftl (-1224000000) 1) = 2447999999 /\
  varint5 2447999999 = list_ascii_of_string "~~_r}gA" /\
  serialize (-1224000000) [] <> varint5 2447999999 /\
  encode [p] 10000000 = list_ascii_of_string "_sjz~U>".
Proof.
  cbv zeta. repeat split; try (vm_compute; reflexivity);
    try (vm_compute; discriminate).
  intros H. inversion H as [| c l [Hc _] _]. now apply Hc.
Qed.

(** C7, as amended. At precision 100000 the point (lon -122.483696,
    lat 38.58) is encoded as "_dnjFbrqjV", and decoding that at 1e-5 gives
    one point within 1e-5 of it on both axes; "_p~iF~ps|U" is the encoding
    of (lon -120.2, lat 38.5). *)
Theorem single_point_example :
  let p := mkPoint (-122.483696) 38.58 in
  encode [p] 100000 = list_ascii_of_string "_dnjFbrqjV" /\
  (exists q,
     decode (C := list Point) (encode [p] 100000) 1e-5 = Some (Ok [q]) /\
     decoded data (decode_vector (encode [p] 100000) 1e-5) = Some (Ok [q]) /\
     (abs (first q - first p) <=? 1e-5)%float = true /\
     (abs (second q - second p) <=? 1e-5)%float = true) /\
  encode [mkPoint (-120.2) 38.5] 100000 = list_ascii_of_string "_p~iF~ps|U".
Proof.
  split; [vm_compute; reflexivity |]. split; [| vm_compute; reflexivity].
  exists (mkPoint (double_of_int (-12248370) * 1e-5)
                  (double_of_int 3858000 * 1e-5)).
  by_computation.
Qed.

(** C8. On every buffer the overload for [std::vector], which reserves
    [length / 4], and the overload for the other containers decode the same
    sequence of points, or fail alike; neither runs out of fuel; the
    reservation shows only in the capacity of the vector returned. *)
Theorem decode_capacity_independent (C : Type) (I : container_t C)
  encoded precision :
  decoded data (decode_vector encoded precision) =
  decoded elements (decode (C := C) encoded precision) /\
  (exists r, decode_vector encoded precision = Some r) /\
  (forall v, decode_vector encoded precision = Some (Ok v) ->
             (List.length encoded / 4 <= capacity v)%nat).
Proof.
  split; [| split].
  - unfold decode_vector, decode. cbv zeta.
    apply decode_loop_containers.
    now rewrite data_reserve, elements_new.
  - unfold decode_vector. cbv zeta.
    destruct (Shape5Decoder_new_ok encoded precision) as [Hok Eu].
    destruct (decode_loop_total vector_emplace_back (S (List.length encoded))
                (Shape5Decoder_new encoded precision)
                (reserve (List.length encoded / 4) vector_new) Hok)
      as [r [Er _]].
    + rewrite Eu. lia.
    + now exists r.
  - intros v Hd. unfold decode_vector in Hd. cbv zeta in Hd.
    apply decode_loop_capacity in Hd.
    unfold reserve, vector_new in Hd. cbn [capacity data] in Hd.
    destruct (Nat.ltb 0 (List.length encoded / 4)) eqn:E;
      cbn [capacity] in Hd; [lia |].
    apply Nat.ltb_ge in E. lia.
Qed.

(** C9. When the unread bytes are exactly one complete sample, [pop] reads it
    as the latitude, finds no longitude and throws the error of a truncated
    sample; the decoder it leaves has the latitude accumulator advanced by
    that sample, the longitude unchanged and the cursor at the end. A buffer
    that [decode] decodes is a sequence of complete samples, two for each
    point returned; [decode] throws on every odd number of complete samples
    and returns on every even number. *)
Theorem pop_without_longitude d smp :
  cursor_ok d -> complete_sample smp = true -> unread d = smp ->
  (exists v,
     read_sample smp 0 0 = Some (v, []) /\
     pop d = (Throw MalformedStream,
              mkShape5Decoder (mem d) (end_ d) (end_ d)
                (add32 (lat d) (unzigzag v)) (lon d) (prec d))) /\
  (forall d0,
     cursor_ok d0 -> Forall (fun c => flagged c = true) (unread d0) ->
     fst (pop d0) = fst (pop d)) /\
  (forall (C : Type) (I : container_t C) buf precision (c : C),
     decode buf precision = Some (Ok c) ->
     exists ss,
       buf = List.concat ss /\
       Forall (fun s => complete_sample s = true) ss /\
       List.length ss = (2 * List.length (elements c))%nat) /\
  (forall (C : Type) (I : container_t C) ss precision,
     Forall (fun s => complete_sample s = true) ss ->
     Nat.Odd (List.length ss) ->
     decode (C := C) (List.concat ss) precision =
     Some (Throw MalformedStream)) /\
  (forall (C : Type) (I : container_t C) ss precision,
     Forall (fun s => complete_sample s = true) ss ->
     Nat.Even (List.length ss) ->
     exists c : C,
       decode (List.concat ss) precision = Some (Ok c) /\
       (2 * List.length (elements c))%nat = List.length ss).
Proof.
  intros Hok Hc Eu.
  assert (Eu' : unread d = smp ++ []) by now rewrite app_nil_r.
  destruct (pop_truncated_longitude d smp [] Hok Hc (Forall_nil _) Eu')
    as [v [Ev Ep]].
  rewrite app_nil_r in Ev.
  split; [| split; [| split; [| split]]].
  - exists v. split; assumption.
  - intros d0 H0 F0. rewrite (pop_truncated_latitude d0 H0 F0), Ep.
    reflexivity.
  - intros C I buf precision c. apply decode_ok_samples.
  - intros C I ss precision Hs Hodd.
    destruct (decode_outcome (C := C) (List.concat ss) precision)
      as [[c Hd] | Hd]; [| exact Hd].
    destruct (decode_ok_samples _ _ _ Hd) as [ss' [Es [Hs' El]]].
    apply concat_samples_unique in Es; try assumption. subst ss'.
    destruct Hodd as [k Hk]. lia.
  - intros C I ss precision Hs [k Hk]. unfold decode. cbv zeta.
    destruct (Shape5Decoder_new_ok (List.concat ss) precision) as [Hn En].
    destruct (decode_loop_even k ss _ container_new
                (S (List.length (List.concat ss))) Hn En Hs Hk)
      as [c [Ed El]].
    + rewrite En. lia.
    + exists c. split; [exact Ed |].
      rewrite El, elements_new. cbn. lia.
Qed.

(** C10. After any number of calls of [pop], failed ones included, on a
    decoder constructed over a buffer, the cursor is at or before the end,
    which is still the length of the buffer; [empty] holds exactly when
    the cursor equals the end; one more [pop] reads no byte outside the
    buffer, moves the cursor forward only, and leaves unread exactly the
    bytes it did not step over; and [next] there either returns, the cursor
    moved by the length of the complete sample it read, or throws with the
    cursor at the end, all the unread bytes carrying the flag. *)
Theorem cursor_within_buffer buf precision n :
  let d := pops n (Shape5Decoder_new buf precision) in
  (begin d <= end_ d)%nat /\
  end_ d = List.length buf /\
  mem d = buf /\
  (empty d = true <-> begin d = end_ d) /\
  fst (pop d) <> OutOfBounds /\
  (begin d <= begin (snd (pop d)) <= end_ (snd (pop d)))%nat /\
  end_ (snd (pop d)) = end_ d /\
  unread (snd (pop d)) = skipn (begin (snd (pop d)) - begin d) (unread d) /\
  (forall previous,
     match next previous d with
     | (Ok _, d') =>
         exists smp,
           complete_sample smp = true /\
           unread d = smp ++ unread d' /\
           begin d' = (begin d + List.length smp)%nat /\
           end_ d' = end_ d
     | (Throw what, d') =>
         what = MalformedStream /\ begin d' = end_ d' /\ end_ d' = end_ d /\
         Forall (fun c => flagged c = true) (unread d)
     | (OutOfBounds, _) => False
     end).
Proof.
  intros d.
  destruct (Shape5Decoder_new_ok buf precision) as [Hok _].
  destruct (pops_cursor n _ Hok) as [Hd [He [Hm _]]]. fold d in Hd, He, Hm.
  destruct (pop_cursor d Hd) as [Ho [Hok' [Hb [He' [_ Hu]]]]].
  assert (Em : empty d = true <-> begin d = end_ d)
    by (unfold empty; apply Nat.eqb_eq).
  assert (Hn := fun previous => next_cursor d previous Hd).
  destruct Hd as [Hd1 Hd2], Hok' as [Hk1 Hk2]. auto 12.
Qed.

(** * Further properties *)

(** ** The decoder on integers *)

(** The loop of [decode] computes [decode_ints_loop] on the unread bytes and
    scales it by the precision of the decoder. *)
Lemma decode_loop_ints {C} `{container_t C} fuel : forall d (c : C),
  cursor_ok d ->
  decoded elements (decode_loop emplace_back fuel d c) =
  option_map
    (outcome_map (fun l => elements c ++ map (unscaled (prec d)) l))
    (decode_ints_loop fuel (unread d) (lon d) (lat d)).
Proof.
  induction fuel as [| fuel IH]; intros d c Hok; [reflexivity |].
  cbn [decode_loop decode_ints_loop].
  destruct (unread d) as [| a l] eqn:Eu.
  - rewrite (unread_nil_empty d Hok Eu). cbn. now rewrite app_nil_r.
  - rewrite empty_false_unread by (try assumption; rewrite Eu; discriminate).
    cbn [negb]. rewrite (pop_read_sample d Hok), Eu.
    destruct (read_sample (a :: l) 0 0) as [[v1 r1] |] eqn:E1;
      [| reflexivity].
    cbv zeta.
    destruct (read_sample r1 0 0) as [[v2 r2] |] eqn:E2; [| reflexivity].
    rewrite <- Eu in E1.
    destruct (pop_two_samples d v1 r1 v2 r2 Hok E1 E2) as [_ [Hok' [Eu' _]]].
    rewrite (IH _ _ Hok'), Eu'. cbn [prec lon lat].
    destruct (decode_ints_loop fuel r2 _ _) as [[l' | w |] |]; cbn;
      try reflexivity.
    rewrite elements_emplace_back, <- app_assoc. reflexivity.
Qed.

Lemma decode_ints_bridge {C} `{container_t C} buf precision :
  decoded elements (decode (C := C) buf precision) =
  option_map (outcome_map (map (unscaled precision))) (decode_ints buf).
Proof.
  unfold decode, decode_ints. cbv zeta.
  destruct (Shape5Decoder_new_ok buf precision) as [Hok Eu].
  rewrite (decode_loop_ints _ _ _ Hok), Eu, elements_new. reflexivity.
Qed.

(** With enough fuel the loop ends, in a list or in the error of [next]. *)
Lemma decode_ints_loop_total fuel : forall bytes lo la,
  (List.length bytes < fuel)%nat ->
  decode_ints_loop fuel bytes lo la = Some (Throw MalformedStream) \/
  exists l, decode_ints_loop fuel bytes lo la = Some (Ok l).
Proof.
  induction fuel as [| fuel IH]; intros bytes lo la Hf; [lia |].
  cbn [decode_ints_loop]. destruct bytes as [| a bytes]; [right; eauto |].
  destruct (read_sample (a :: bytes) 0 0) as [[v1 r1] |] eqn:E1; [| now left].
  cbv zeta.
  destruct (read_sample r1 0 0) as [[v2 r2] |] eqn:E2; [| now left].
  destruct (read_sample_some _ _ _ _ _ E1) as [s1 [Eb C1]].
  destruct (read_sample_some _ _ _ _ _ E2) as [s2 [Er C2]].
  apply complete_sample_nonempty in C1. apply complete_sample_nonempty in C2.
  assert (Hl : (List.length r2 < fuel)%nat).
  { rewrite Eb, Er, !length_app in Hf. lia. }
  destruct (IH r2 (add32 lo (unzigzag v2)) (add32 la (unzigzag v1)) Hl)
    as [-> | [l ->]]; [now left | right; eauto].
Qed.

Lemma decode_ints_loop_fuel f1 : forall f2 bytes lo la,
  (List.length bytes < f1)%nat -> (List.length bytes < f2)%nat ->
  decode_ints_loop f1 bytes lo la = decode_ints_loop f2 bytes lo la.
Proof.
  induction f1 as [| f1 IH]; intros f2 bytes lo la H1 H2; [lia |].
  destruct f2 as [| f2]; [lia |].
  cbn [decode_ints_loop]. destruct bytes as [| a bytes]; [reflexivity |].
  destruct (read_sample (a :: bytes) 0 0) as [[v1 r1] |] eqn:E1;
    [| reflexivity].
  cbv zeta.
  destruct (read_sample r1 0 0) as [[v2 r2] |] eqn:E2; [| reflexivity].
  destruct (read_sample_some _ _ _ _ _ E1) as [s1 [Eb C1]].
  destruct (read_sample_some _ _ _ _ _ E2) as [s2 [Er C2]].
  apply complete_sample_nonempty in C1. apply complete_sample_nonempty in C2.
  assert (Hl : (List.length r2 + 2 <= List.length (a :: bytes))%nat).
  { rewrite Eb, Er, !length_app. lia. }
  cbn [List.length] in *.
  rewrite (IH f2 r2) by lia. reflexivity.
Qed.

(** X1. The points [decode] returns are integer coordinates, fixed by the
    buffer alone, times the precision: for every buffer there is one outcome
    on integers, a list or the error "Bad encoded polyline", that both
    overloads return scaled, for every precision and every container.
    Whether decoding throws depends on neither. *)
Theorem decode_integer_coordinates buf :
  exists r : outcome (list (Z * Z)),
    (r = Throw MalformedStream \/ exists ints, r = Ok ints) /\
    forall precision,
      decoded data (decode_vector buf precision) =
        Some (outcome_map (map (unscaled precision)) r) /\
      forall (C : Type) (I : container_t C),
        decoded elements (decode (C := C) buf precision) =
        Some (outcome_map (map (unscaled precision)) r).
Proof.
  destruct (decode_ints_loop_total (S (List.length buf)) buf 0 0
              (Nat.lt_succ_diag_r _)) as [E | [l E]].
  - exists (Throw MalformedStream). split; [now left |].
    intros precision. split.
    + rewrite decode_vector_decoded.
      pose proof (decode_ints_bridge (C := list Point) buf precision) as B.
      unfold decode_ints in B. rewrite E in B.
      unfold decoded in B. cbn [elements list_container] in B.
      destruct (decode buf precision) as [[c | w |] |]; cbn in B;
        try discriminate.
      injection B as ->. reflexivity.
    + intros C I. rewrite decode_ints_bridge. unfold decode_ints.
      now rewrite E.
  - exists (Ok l). split; [right; eauto |].
    intros precision. split.
    + rewrite decode_vector_decoded.
      pose proof (decode_ints_bridge (C := list Point) buf precision) as B.
      unfold decode_ints in B. rewrite E in B.
      unfold decoded in B. cbn [elements list_container] in B.
      destruct (decode buf precision) as [[c | w |] |]; cbn in B;
        try discriminate.
      injection B as ->. reflexivity.
    + intros C I. rewrite decode_ints_bridge. unfold decode_ints.
      now rewrite E.
Qed.

Lemma decoded_list (r : option (outcome (list Point))) :
  decoded elements r = r.
Proof. destruct r as [[c | w |] |]; reflexivity. Qed.

Lemma decode_list_ints buf precision :
  decode (C := list Point) buf precision =
  option_map (outcome_map (map (unscaled precision))) (decode_ints buf).
Proof. rewrite <- decode_ints_bridge. symmetry. apply decoded_list. Qed.

Lemma decode_ints_some buf precision pts :
  decode (C := list Point) buf precision = Some (Ok pts) ->
  exists ints,
    decode_ints buf = Some (Ok ints) /\ pts = map (unscaled precision) ints.
Proof.
  rewrite decode_list_ints.
  destruct (decode_ints buf) as [[ints | w |] |]; cbn; intros E;
    try discriminate.
  injection E as <-. eauto.
Qed.

(** ** Streams of deltas *)

Lemma decode_ints_loop_deltas dl : forall fuel lo la,
  Forall (fun d => zigzag_safe (fst d) /\ zigzag_safe (snd d)) dl ->
  (List.length (flat_map point_bytes dl) < fuel)%nat ->
  decode_ints_loop fuel (flat_map point_bytes dl) lo la =
  Some (Ok (running lo la dl)).
Proof.
  induction dl as [| [dlat dlon] dl IH]; intros fuel lo la Hs Hf.
  - destruct fuel; [lia | reflexivity].
  - destruct fuel as [| fuel]; [lia |].
    inversion Hs as [| ? ? [Sla Slo] Hs']; subst. cbn [fst snd] in *.
    cbn [flat_map] in *. unfold point_bytes at 1 in Hf.
    unfold point_bytes at 1. cbn [fst snd] in *.
    rewrite <- app_assoc in *.
    pose proof (read_sample_serialize dlat
                  (serialize dlon [] ++ flat_map point_bytes dl) Sla) as E1.
    pose proof (read_sample_serialize dlon (flat_map point_bytes dl) Slo)
      as E2.
    assert (Hl : (List.length (flat_map point_bytes dl) < fuel)%nat).
    { rewrite !length_app in Hf.
      pose proof (serialize_nonempty dlat) as N.
      destruct (serialize dlat []); [contradiction | cbn in Hf; lia]. }
    cbn [decode_ints_loop].
    destruct (serialize dlat [] ++ serialize dlon [] ++
              flat_map point_bytes dl) as [| a l] eqn:Eb.
    { apply app_eq_nil in Eb. destruct Eb as [Eb _].
      now apply serialize_nonempty in Eb. }
    rewrite E1. cbv zeta. rewrite E2.
    rewrite !unzigzag_zigzag by assumption.
    rewrite IH; [reflexivity | assumption | exact Hl].
Qed.

(** X2. The wire format is a stream of deltas: on the bytes of any sequence
    of pairs (latitude delta, longitude delta), each in [-2^30, 2^30) and
    serialized latitude first, [decode] returns one point per pair, whose
    integer coordinates are the running sums of the deltas from zero, in
    [int] arithmetic. *)
Theorem decode_running_sums dl precision :
  Forall (fun d => zigzag_safe (fst d) /\ zigzag_safe (snd d)) dl ->
  decode (C := list Point)
    (flat_map (fun d => serialize (fst d) [] ++ serialize (snd d) []) dl)
    precision =
  Some (Ok (map (unscaled precision) (running 0 0 dl))).
Proof.
  intros Hs. rewrite decode_list_ints. unfold decode_ints.
  change (flat_map _ dl) with (flat_map point_bytes dl).
  rewrite decode_ints_loop_deltas; [reflexivity | assumption | lia].
Qed.

(** ** Prefixes *)

Lemma read_sample_app bytes : forall more shift result v rest,
  read_sample bytes shift result = Some (v, rest) ->
  read_sample (bytes ++ more) shift result = Some (v, rest ++ more).
Proof.
  induction bytes as [| c bytes IH]; intros more shift result v rest H.
  - discriminate.
  - cbn [app read_sample] in *.
    destruct (32 <=? int_of_char c - 63).
    + now apply IH.
    + now injection H as <- <-.
Qed.

Lemma decode_ints_loop_app f1 : forall f b1 b2 lo la l1 l,
  decode_ints_loop f1 b1 lo la = Some (Ok l1) ->
  decode_ints_loop f (b1 ++ b2) lo la = Some (Ok l) ->
  exists l2, l = l1 ++ l2.
Proof.
  induction f1 as [| f1 IH]; intros f b1 b2 lo la l1 l H1 H; [discriminate |].
  cbn [decode_ints_loop] in H1. destruct b1 as [| a b1].
  - injection H1 as <-. now exists l.
  - destruct (read_sample (a :: b1) 0 0) as [[v1 r1] |] eqn:E1;
      [| discriminate].
    cbv zeta in H1.
    destruct (read_sample r1 0 0) as [[v2 r2] |] eqn:E2; [| discriminate].
    destruct (decode_ints_loop f1 r2 _ _) as [[l1' | w |] |] eqn:E3;
      try discriminate.
    injection H1 as <-.
    destruct f as [| f]; [discriminate |].
    cbn [decode_ints_loop] in H. cbn [app] in H.
    change (a :: b1 ++ b2) with ((a :: b1) ++ b2) in H.
    rewrite (read_sample_app _ b2 _ _ _ _ E1) in H. cbv zeta in H.
    rewrite (read_sample_app _ b2 _ _ _ _ E2) in H.
    destruct (decode_ints_loop f (r2 ++ b2) _ _) as [[l' | w |] |] eqn:E4;
      try discriminate.
    injection H as <-.
    destruct (IH _ _ _ _ _ _ _ E3 E4) as [l2 ->].
    now exists l2.
Qed.

(** X3. Decoding is stable under extension: when a buffer decodes and so
    does the buffer with more bytes after it, the points of the first are
    the first points of the second. *)
Theorem decode_prefix b1 b2 precision pts1 pts :
  decode (C := list Point) b1 precision = Some (Ok pts1) ->
  decode (C := list Point) (b1 ++ b2) precision = Some (Ok pts) ->
  exists pts2, pts = pts1 ++ pts2.
Proof.
  intros H1 H.
  destruct (decode_ints_some _ _ _ H1) as [l1 [E1 ->]].
  destruct (decode_ints_some _ _ _ H) as [l [E ->]].
  destruct (decode_ints_loop_app _ _ _ _ _ _ _ _ E1 E) as [l2 ->].
  exists (map (unscaled precision) l2). apply map_app.
Qed.

(** ** The encoder is injective *)

Lemma serialize_prefix_free d d' r r' :
  zigzag_safe d -> zigzag_safe d' ->
  serialize d [] ++ r = serialize d' [] ++ r' -> d = d' /\ r = r'.
Proof.
  intros Hd Hd' E.
  pose proof (read_sample_serialize d r Hd) as R.
  rewrite E, (read_sample_serialize d' r' Hd') in R.
  injection R as Ez Er. split; [| now symmetry].
  rewrite <- (unzigzag_zigzag d Hd), <- (unzigzag_zigzag d' Hd').
  now rewrite Ez.
Qed.

Lemma sub32_safe a b : zigzag_safe (a - b) -> sub32 a b = a - b.
Proof. intros H. unfold sub32. now apply wrap32_id, zigzag_safe_in_int. Qed.

Lemma point_bytes_nonempty dl : point_bytes dl <> [].
Proof.
  unfold point_bytes. intros E. apply app_eq_nil in E.
  exact (serialize_nonempty _ (proj1 E)).
Qed.

Lemma point_bytes_deltas_inj l1 : forall l2 lo la,
  deltas_safe lo la l1 -> deltas_safe lo la l2 ->
  flat_map point_bytes (deltas lo la l1) =
  flat_map point_bytes (deltas lo la l2) ->
  l1 = l2.
Proof.
  induction l1 as [| [lo1 la1] l1 IH]; intros [| [lo2 la2] l2] lo la H1 H2 E.
  - reflexivity.
  - cbn [deltas flat_map] in E. symmetry in E. apply app_eq_nil in E.
    now apply proj1, point_bytes_nonempty in E.
  - cbn [deltas flat_map] in E. apply app_eq_nil in E.
    now apply proj1, point_bytes_nonempty in E.
  - cbn [deltas_safe] in H1, H2.
    destruct H1 as [A1 [B1 H1]], H2 as [A2 [B2 H2]].
    cbn [deltas flat_map] in E. unfold point_bytes at 1 3 in E.
    cbn [fst snd] in E. rewrite <- !app_assoc in E.
    rewrite !sub32_safe in E by assumption.
    apply serialize_prefix_free in E; try assumption. destruct E as [Ea E].
    apply serialize_prefix_free in E; try assumption. destruct E as [Eo E].
    assert (la1 = la2) by lia. assert (lo1 = lo2) by lia. subst.
    f_equal. eapply IH; eauto.
Qed.

(** X4. The encoding determines the integer coordinates: two sequences of
    points, each with all its deltas in [-2^30, 2^30), that are encoded to
    the same buffer, at whatever precisions, have the same scaled integer
    coordinates, point by point. *)
Theorem encode_injective points1 precision1 points2 precision2 :
  deltas_safe 0 0 (map (scaled precision1) points1) ->
  deltas_safe 0 0 (map (scaled precision2) points2) ->
  encode points1 precision1 = encode points2 precision2 ->
  map (scaled precision1) points1 = map (scaled precision2) points2.
Proof.
  intros H1 H2 E. rewrite !encode_deltas in E.
  eapply point_bytes_deltas_inj; eauto.
Qed.

(** ** Sizes *)

Lemma continuation_count_int z :
  0 <= z < 2 ^ 31 -> (continuation_count z <= 6)%nat.
Proof.
  intros H. unfold continuation_count.
  destruct (Z.eq_dec z 0) as [-> | Hz]; [cbn; lia |].
  assert (Z.log2 z < 31) by (apply Z.log2_lt_pow2; lia).
  pose proof (Z.log2_nonneg z).
  assert (Z.log2 z / 5 <= 6) by (apply Z.div_le_upper_bound; lia).
  assert (0 <= Z.log2 z / 5) by (apply Z.div_pos; lia). lia.
Qed.

Lemma varint5_length z :
  List.length (varint5 z) = S (continuation_count z).
Proof.
  unfold varint5. rewrite length_app, length_map, length_seq. cbn. lia.
Qed.

Lemma serialize_negative number out :
  zigzag number < 0 ->
  serialize number out = out ++ [char_of_int (zigzag number + 63)].
Proof.
  intros H. unfold serialize. cbn [serialize_loop].
  destruct (Z.leb_spec 32 (zigzag number)); [lia |].
  unfold add32. rewrite wrap32_id; [reflexivity |].
  pose proof (zigzag_in_int number). int_bounds.
Qed.

Lemma serialize_length number :
  (1 <= List.length (serialize number []) <= 7)%nat.
Proof.
  destruct (Z_lt_le_dec (zigzag number) 0) as [Hn | Hp].
  - rewrite serialize_negative by assumption. cbn. lia.
  - pose proof (zigzag_in_int number) as Hi.
    assert (Hz : 0 <= zigzag number < 2 ^ 31) by int_bounds.
    unfold serialize. rewrite serialize_loop_varint5
      by (change (5 * Z.of_nat 7) with 35; lia).
    cbn [app]. rewrite varint5_length.
    pose proof (continuation_count_int _ Hz). lia.
Qed.

Lemma point_bytes_length dl :
  (2 <= List.length (point_bytes dl) <= 14)%nat.
Proof.
  unfold point_bytes. rewrite length_app.
  pose proof (serialize_length (fst dl)).
  pose proof (serialize_length (snd dl)). lia.
Qed.

Lemma deltas_length l : forall lo la,
  List.length (deltas lo la l) = List.length l.
Proof.
  induction l as [| [lo' la'] l IH]; intros lo la; cbn [deltas List.length];
    [reflexivity | now rewrite IH].
Qed.

Lemma flat_map_point_bytes_length dl :
  (2 * List.length dl <= List.length (flat_map point_bytes dl)
   <= 14 * List.length dl)%nat.
Proof.
  induction dl as [| d dl IH]; cbn [flat_map List.length]; [lia |].
  rewrite length_app. pose proof (point_bytes_length d). lia.
Qed.


(** ** Appending points *)

Lemma last_cons {A} (a : A) l d : last (a :: l) d = last l a.
Proof.
  revert a d. induction l as [| b l IH]; intros a d; [reflexivity |].
  change (last (a :: b :: l) d) with (last (b :: l) d).
  now rewrite !IH.
Qed.

Lemma encode_fold_last precision points : forall st,
  (last_lon (fold_left (encode_step precision) points st),
   last_lat (fold_left (encode_step precision) points st)) =
  last (map (scaled precision) points) (last_lon st, last_lat st).
Proof.
  induction points as [| p points IH]; intros st; [reflexivity |].
  cbn [fold_left map]. rewrite IH, last_cons. reflexivity.
Qed.

(** X6. Encoding is incremental: the encoding of a sequence followed by
    more points is the encoding of the sequence followed by the bytes of
    the further points, their deltas taken from the integer coordinates of
    the last point of the sequence (from zero when it is empty). *)
Theorem encode_app points more precision :
  encode (points ++ more) precision =
  encode points precision ++
  flat_map (fun dl => serialize (fst dl) [] ++ serialize (snd dl) [])
    (deltas (fst (last (map (scaled precision) points) (0, 0)))
            (snd (last (map (scaled precision) points) (0, 0)))
            (map (scaled precision) more)).
Proof.
  unfold encode. rewrite fold_left_app, encode_fold.
  pose proof (encode_fold_last precision points (mkEncodeState [] 0 0)) as L.
  cbn [last_lon last_lat] in L. rewrite <- L. reflexivity.
Qed.

(** ** How many points a buffer holds *)

Lemma concat_samples_length ss :
  Forall (fun s => complete_sample s = true) ss ->
  (List.length ss <= List.length (List.concat ss))%nat.
Proof.
  induction 1 as [| s ss Hs _ IH]; cbn [List.concat List.length]; [lia |].
  rewrite length_app. apply complete_sample_nonempty in Hs. lia.
Qed.

Lemma vector_emplace_back_size p v :
  (List.length (data v) <= capacity v)%nat ->
  (List.length (data (vector_emplace_back p v)) <=
   capacity (vector_emplace_back p v))%nat.
Proof.
  intros H. unfold vector_emplace_back.
  destruct (Nat.ltb_spec (List.length (data v)) (capacity v));
    cbn [data capacity]; rewrite length_app; cbn [List.length]; lia.
Qed.

Lemma decode_loop_size fuel : forall d v v',
  (List.length (data v) <= capacity v)%nat ->
  decode_loop vector_emplace_back fuel d v = Some (Ok v') ->
  (List.length (data v') <= capacity v')%nat.
Proof.
  induction fuel as [| fuel IH]; intros d v v' Hv Hd; [discriminate |].
  cbn [decode_loop] in Hd. destruct (negb (empty d)).
  - destruct (pop d) as [[p | w |] d']; try discriminate.
    eapply IH; [| exact Hd]. now apply vector_emplace_back_size.
  - now injection Hd as <-.
Qed.

Lemma complete_sample_one_end s :
  complete_sample s = true ->
  List.length (filter (fun c => negb (flagged c)) s) = 1%nat.
Proof.
  induction s as [| a s IH]; [discriminate |].
  cbn [complete_sample filter]. destruct (flagged a); cbn [negb].
  - exact IH.
  - destruct s; [reflexivity | discriminate].
Qed.

Lemma concat_samples_ends ss :
  Forall (fun s => complete_sample s = true) ss ->
  List.length (filter (fun c => negb (flagged c)) (List.concat ss)) =
  List.length ss.
Proof.
  induction 1 as [| s ss Hs _ IH]; [reflexivity |].
  cbn [List.concat List.length].
  rewrite filter_app, length_app, IH, (complete_sample_one_end s Hs).
  reflexivity.
Qed.

(** X7. A buffer that [decode] decodes holds two bytes without the
    continuation flag for each point, so at most one point for every two
    bytes; and the vector of the [std::vector] overload holds its points
    within its capacity. *)
Theorem decode_size buf precision :
  (forall (C : Type) (I : container_t C) (c : C),
     decode buf precision = Some (Ok c) ->
     (2 * List.length (elements c))%nat =
       List.length (filter (fun c => negb (flagged c)) buf) /\
     (2 * List.length (elements c) <= List.length buf)%nat) /\
  (forall v,
     decode_vector buf precision = Some (Ok v) ->
     (2 * List.length (data v) <= List.length buf)%nat /\
     (List.length (data v) <= capacity v)%nat).
Proof.
  assert (G : forall (C : Type) (I : container_t C) (c : C),
     decode buf precision = Some (Ok c) ->
     (2 * List.length (elements c))%nat =
       List.length (filter (fun c => negb (flagged c)) buf) /\
     (2 * List.length (elements c) <= List.length buf)%nat).
  { intros C I c Hd.
    destruct (decode_ok_samples _ _ _ Hd) as [ss [-> [Hs <-]]].
    split; [symmetry; now apply concat_samples_ends
           | now apply concat_samples_length]. }
  split; [exact G |]. intros v Hd. split.
  - assert (Hl : decode (C := list Point) buf precision = Some (Ok (data v)))
      by (rewrite <- decode_vector_decoded, Hd; reflexivity).
    exact (proj2 (G (list Point) list_container (data v) Hl)).
  - unfold decode_vector in Hd. cbv zeta in Hd.
    eapply decode_loop_size; [| exact Hd].
    rewrite data_reserve. cbn. lia.
Qed.

(** ** How many bytes a delta takes *)

Lemma zigzag_bound d k :
  zigzag_safe d -> 1 <= k ->
  (zigzag d < 2 ^ (5 * k) <-> - 2 ^ (5 * k - 1) <= d < 2 ^ (5 * k - 1)).
Proof.
  intros Hd Hk.
  assert (P : 2 ^ (5 * k) = 2 * 2 ^ (5 * k - 1)).
  { rewrite <- Z.pow_succ_r by lia. f_equal. lia. }
  unfold zigzag_safe in Hd. destruct (Z_lt_le_dec d 0).
  - rewrite zigzag_neg by lia. lia.
  - rewrite zigzag_nonneg by lia. lia.
Qed.

Lemma continuation_count_lt z k :
  0 <= z -> (1 <= k)%nat ->
  (continuation_count z < k)%nat <-> z < 2 ^ (5 * Z.of_nat k).
Proof.
  intros Hz Hk. unfold continuation_count.
  destruct (Z.eq_dec z 0) as [-> | Hnz].
  - change (Z.to_nat (Z.log2 0 / 5)) with 0%nat. split; intros H.
    + apply Z.pow_pos_nonneg; lia.
    + lia.
  - pose proof (Z.log2_nonneg z) as Hl.
    assert (Hd : 0 <= Z.log2 z / 5) by (apply Z.div_pos; lia).
    split; intros H.
    + apply Z.log2_lt_pow2; [lia |].
      assert (Z.log2 z / 5 < Z.of_nat k) by lia.
      pose proof (Z.mul_succ_div_gt (Z.log2 z) 5 ltac:(lia)). lia.
    + apply Z.log2_lt_pow2 in H; [| lia].
      assert (Z.log2 z / 5 < Z.of_nat k)
        by (apply Z.div_lt_upper_bound; lia).
      lia.
Qed.

(** X8. Small deltas take few bytes, whatever their sign: for a delta in
    [-2^30, 2^30) and k at least 1, [serialize] emits at most k bytes
    exactly when the delta lies in [-2^(5k-1), 2^(5k-1)); one byte for
    -16..15, two for -512..511, and so on. *)
Theorem serialize_length_by_magnitude d k :
  zigzag_safe d -> (1 <= k)%nat ->
  ((List.length (serialize d []) <= k)%nat <->
   - 2 ^ (5 * Z.of_nat k - 1) <= d < 2 ^ (5 * Z.of_nat k - 1)).
Proof.
  intros Hd Hk. rewrite serialize_varint5 by assumption. cbn [app].
  rewrite varint5_length.
  pose proof (zigzag_range d Hd) as Hz.
  rewrite <- (zigzag_bound d (Z.of_nat k)) by (try assumption; lia).
  rewrite <- continuation_count_lt by lia. lia.
Qed.

(** ** Text safety *)

Lemma point_bytes_deltas_printable l : forall lo la,
  deltas_safe lo la l ->
  Forall printable (flat_map point_bytes (deltas lo la l)).
Proof.
  induction l as [| [lo' la'] l IH]; intros lo la Hs; [constructor |].
  cbn [deltas_safe] in Hs. destruct Hs as [A [B Hs]].
  cbn [deltas flat_map]. unfold point_bytes at 1. cbn [fst snd].
  rewrite !sub32_safe by assumption.
  rewrite !serialize_varint5 by assumption. cbn [app].
  apply Forall_app. split; [apply Forall_app; split |].
  - apply varint5_printable. now apply zigzag_range.
  - apply varint5_printable. now apply zigzag_range.
  - now apply IH.
Qed.

(** X9. The encoding is text: when every delta of the sequence lies in
    [-2^30, 2^30), every byte of the buffer [encode] returns has a code
    between 63 and 126. *)
Theorem encode_printable points precision :
  deltas_safe 0 0 (map (scaled precision) points) ->
  Forall printable (encode points precision).
Proof.
  intros Hs. rewrite encode_deltas. now apply point_bytes_deltas_printable.
Qed.

(** ** Empty input *)

(** X10. Empty in, empty out, and only then: [encode] returns the empty
    buffer exactly for the empty sequence, both overloads of [decode]
    return an empty container on the empty buffer, and a [decode] that
    returns no point was given the empty buffer. *)
Theorem empty_input precision :
  (forall points precision',
     encode points precision' = [] <-> points = []) /\
  decode (C := list Point) [] precision = Some (Ok []) /\
  decode_vector [] precision = Some (Ok (mkVector [] 0)) /\
  (forall (C : Type) (I : container_t C) buf (c : C),
     decode buf precision = Some (Ok c) ->
     (elements c = [] <-> buf = [])).
Proof.
  split; [| split; [| split]].
  - intros points precision'. split; [| now intros ->].
    intros E. rewrite encode_deltas in E.
    pose proof (flat_map_point_bytes_length
                  (deltas 0 0 (map (scaled precision') points))) as H.
    rewrite E, deltas_length, length_map in H.
    destruct points; [reflexivity | cbn in H; lia].
  - reflexivity.
  - reflexivity.
  - intros C I buf c Hd. split.
    + intros E. destruct (decode_ok_samples _ _ _ Hd) as [ss [-> [_ L]]].
      rewrite E in L. cbn in L. now destruct ss.
    + intros ->. unfold decode in Hd. cbn in Hd. injection Hd as <-.
      apply elements_new.
Qed.

(** ** The zig-zag step, the other way and out of range *)

(** X11. The inverse step of the decoder lands in [-2^30, 2^30) on every
    result from 0 to 2^31 - 1, and the zig-zag step brings it back: with
    C5's direction, the two steps are inverse bijections between the
    deltas of that range and the non-negative [int] values. *)
Theorem zigzag_unzigzag z :
  0 <= z < 2 ^ 31 ->
  zigzag_safe (unzigzag z) /\ zigzag (unzigzag z) = z.
Proof.
  intros H. unfold unzigzag.
  assert (L : Z.land z 1 = z mod 2) by apply (Z.land_ones z 1 ltac:(lia)).
  rewrite L, Z.shiftr_div_pow2 by lia. change (2 ^ 1) with 2.
  pose proof (Z.div_mod z 2 ltac:(lia)) as DM.
  pose proof (Z.mod_pos_bound z 2 ltac:(lia)) as MB.
  destruct (Z.eqb_spec (z mod 2) 0) as [E | E]; cbn [negb].
  - assert (R : 0 <= z / 2 < 2 ^ 30) by lia.
    split; [unfold zigzag_safe; lia |]. rewrite zigzag_nonneg; lia.
  - assert (R : 0 <= z / 2 < 2 ^ 30) by lia. unfold Z.lnot.
    split; [unfold zigzag_safe; lia |]. rewrite zigzag_neg; lia.
Qed.

Lemma zigzag_out_of_range d :
  in_int d -> ~ zigzag_safe d -> zigzag d < 0.
Proof.
  intros Hi Hn. unfold zigzag_safe in Hn. unfold zigzag.
  assert (R : INT_MIN <= d <= INT_MAX) by exact Hi.
  unfold INT_MIN, INT_MAX in R.
  destruct (Z.ltb_spec d 0) as [Hneg | Hpos].
  - assert (E1 : wrapu32 d = d + 2 ^ 32).
    { unfold wrapu32. symmetry. apply (Z.mod_unique d (2 ^ 32) (-1)); lia. }
    rewrite E1, Z.shiftl_mul_pow2 by lia. change (2 ^ 1) with 2.
    assert (E2 : wrapu32 ((d + 2 ^ 32) * 2) = 2 * d + 2 ^ 32).
    { unfold wrapu32. symmetry. apply (Z.mod_unique _ (2 ^ 32) 1); lia. }
    rewrite E2. unfold Z.lnot.
    assert (E3 : wrapu32 (Z.pred (- (2 * d + 2 ^ 32))) = - 2 * d - 1).
    { unfold wrapu32. symmetry. apply (Z.mod_unique _ (2 ^ 32) (-1)); lia. }
    rewrite E3. unfold wrap32.
    rewrite <- (Z.mod_unique (- 2 * d - 1 + 2 ^ 31) (2 ^ 32) 1
                  (- 2 * d - 1 - 2 ^ 31)); lia.
  - unfold shl32. change (1 mod 32) with 1.
    rewrite Z.shiftl_mul_pow2 by lia. change (2 ^ 1) with 2.
    assert (E1 : wrap32 (d * 2) = 2 * d - 2 ^ 32).
    { unfold wrap32.
      rewrite <- (Z.mod_unique (d * 2 + 2 ^ 31) (2 ^ 32) 1
                    (2 * d - 2 ^ 31)); lia. }
    rewrite E1.
    assert (E2 : wrapu32 (2 * d - 2 ^ 32) = 2 * d).
    { unfold wrapu32. symmetry. apply (Z.mod_unique _ (2 ^ 32) (-1)); lia. }
    rewrite E2. replace (2 * d) with (d * 2) by lia. rewrite E1. lia.
Qed.

(** X12. Out of range, a delta loses its value: for every [int] delta
    outside [-2^30, 2^30) the zig-zag step gives a negative number, the
    loop of [serialize] does not run, and exactly one byte is appended. *)
Theorem serialize_out_of_range d out :
  in_int d -> ~ zigzag_safe d ->
  zigzag d < 0 /\
  serialize d out = out ++ [char_of_int (zigzag d + 63)].
Proof.
  intros Hi Hn. pose proof (zigzag_out_of_range d Hi Hn) as Hz.
  split; [exact Hz | now apply serialize_negative].
Qed.

(** ** The 7-bit decoder with the 5-bit sample decoder *)

(** [next] reads and moves the cursor, and nothing else of the decoder. *)
Lemma next_loop_frame cur : forall shift result d,
  next_loop cur shift result d =
  (fst (next_loop cur shift result
          (mkShape5Decoder (mem d) (begin d) (end_ d) 0 0 0%float)),
   set_begin
     (begin (snd (next_loop cur shift result
                    (mkShape5Decoder (mem d) (begin d) (end_ d) 0 0 0%float))))
     d).
Proof.
  induction cur as [| c cur IH]; intros shift result d.
  - cbn [next_loop]. unfold empty. cbn [begin end_].
    destruct (Nat.eqb (begin d) (end_ d)); cbn [fst snd begin];
      now rewrite set_begin_same.
  - cbn [next_loop]. unfold empty. cbn [begin end_].
    destruct (Nat.eqb (begin d) (end_ d)); cbn [fst snd begin];
      [now rewrite set_begin_same |].
    destruct (32 <=? int_of_char c - 63).
    + rewrite IH. reflexivity.
    + reflexivity.
Qed.

Lemma next_frame previous d :
  next previous d =
  (fst (decode5Sample (mem d) (begin d) (end_ d) previous),
   set_begin (snd (decode5Sample (mem d) (begin d) (end_ d) previous)) d).
Proof.
  unfold decode5Sample, next, bind, ret. cbn [mem begin end_ fst snd].
  rewrite (next_loop_frame _ 0 0 d).
  destruct (next_loop (skipn (begin d) (mem d)) 0 0
              (mkShape5Decoder (mem d) (begin d) (end_ d) 0 0 0%float))
    as [[v | w |] d']; reflexivity.
Qed.

Lemma pop_as_Shape5Decoder s :
  pop (as_Shape5Decoder s) =
  (fst (Varint7.pop decode5Sample s),
   as_Shape5Decoder (snd (Varint7.pop decode5Sample s))).
Proof.
  destruct s as [m b e la lo p].
  unfold pop, bind, gets, modify, ret, Varint7.pop, Varint7.next,
    as_Shape5Decoder.
  cbn [Varint7.mem Varint7.begin Varint7.end_ Varint7.lat Varint7.lon
       Varint7.prec].
  rewrite next_frame. cbn [mem begin end_ lat lon prec set_begin set_lat].
  destruct (decode5Sample m b e la) as [[v | w |] b1];
    cbn [fst snd Varint7.mem Varint7.begin Varint7.end_ Varint7.lat
         Varint7.lon Varint7.prec];
    try reflexivity.
  rewrite next_frame.
  cbn [mem begin end_ lat lon prec set_begin set_lat set_lon].
  destruct (decode5Sample m b1 e lo) as [[w | w |] b2]; reflexivity.
Qed.

Lemma decode7_loop_as_Shape5Decoder {C} (push : Point -> C -> C) fuel :
  forall s c,
  Varint7.decode7_loop decode5Sample push fuel s c =
  decode_loop push fuel (as_Shape5Decoder s) c.
Proof.
  induction fuel as [| fuel IH]; intros s c; [reflexivity |].
  cbn [Varint7.decode7_loop decode_loop].
  change (empty (as_Shape5Decoder s)) with (Varint7.empty s).
  destruct (negb (Varint7.empty s)); [| reflexivity].
  rewrite pop_as_Shape5Decoder.
  destruct (Varint7.pop decode5Sample s) as [[p | w |] s']; cbn [fst snd];
    [apply IH | reflexivity | reflexivity].
Qed.

(** X14. The two decoders differ by their sample decoder only: given the
    sample decoder of [Shape5Decoder] for [decode7Sample], [decode7]
    returns what [decode] returns, on every buffer, from both overloads. *)
Theorem decode7_with_5bit_samples (C : Type) (I : container_t C)
  buf precision :
  Varint7.decode7 decode5Sample (C := C) (S (List.length buf)) buf precision =
    decode buf precision /\
  Varint7.decode7_vector decode5Sample (S (List.length buf)) buf precision =
    decode_vector buf precision.
Proof.
  split.
  - unfold Varint7.decode7, decode. cbv zeta.
    apply decode7_loop_as_Shape5Decoder.
  - unfold Varint7.decode7_vector, decode_vector. cbv zeta.
    apply decode7_loop_as_Shape5Decoder.
Qed.

(** ** An empty decoder *)

(** X17. [pop] and [next] on a decoder that is empty do not read: they throw
    "Bad encoded polyline" and leave the decoder as it was, accumulators
    included. *)
Theorem pop_on_empty d :
  empty d = true ->
  (forall previous, next previous d = (Throw MalformedStream, d)) /\
  pop d = (Throw MalformedStream, d).
Proof.
  intros He.
  assert (N : forall previous, next previous d = (Throw MalformedStream, d)).
  { intros previous. unfold next, bind.
    destruct (skipn (begin d) (mem d)); cbn [next_loop]; now rewrite He. }
  split; [exact N |].
  unfold pop, bind, gets. now rewrite N.
Qed.

(** ** The round trip on integer coordinates *)

(** X18. The round trip, on integer coordinates. For every sequence of
    points whose scaled coordinates fit in an [int] and whose successive
    integer coordinates differ, on each axis and from zero for the first
    point, by a delta in [-2^30, 2^30), both overloads of [decode] on the
    encoding, at any precision, return a sequence of the same length: the
    integer coordinates [encode] computed, times the decoding precision,
    point by point; and each integer coordinate is within 1/2 of the double
    product of the original coordinate and the encoding precision. *)
Theorem decode_encode_roundtrip points precision precision' :
  Forall (representable precision) points ->
  deltas_safe 0 0 (map (scaled precision) points) ->
  let ints := map (scaled precision) points in
  decode (C := list Point) (encode points precision) precision' =
    Some (Ok (map (unscaled precision') ints)) /\
  decoded data (decode_vector (encode points precision) precision') =
    Some (Ok (map (unscaled precision') ints)) /\
  List.length (map (unscaled precision') ints) = List.length points /\
  Forall (fun p =>
    (Qabs (inject_Z (fst (scaled precision p)) -
           Q_of_double (first p * double_of_int precision)) <= 1 # 2)%Q /\
    (Qabs (inject_Z (snd (scaled precision p)) -
           Q_of_double (second p * double_of_int precision)) <= 1 # 2)%Q)
    points.
Proof.
  intros Hr Hs ints.
  pose proof (decode_encode_ints points precision precision' Hs) as Hd.
  split; [exact Hd |]. split; [| split].
  - now rewrite decode_vector_decoded.
  - unfold ints. now rewrite !length_map.
  - apply Forall_forall. intros p Hp.
    rewrite Forall_forall in Hr. destruct (Hr p Hp) as [Hlon Hlat].
    split; [exact (proj1 (int_of_round_nearest _ Hlon))
           | exact (proj1 (int_of_round_nearest _ Hlat))].
Qed.

(** ** The bytes of a sample *)

(** X19. The bytes of a sample. For every delta in [-2^30, 2^30),
    [serialize] appends one byte per 5-bit chunk of the zig-zagged value,
    least significant chunk first: a byte [(0x20 | chunk) + 63] for each
    chunk at which the value that remains is at least 32, then the last
    chunk, below 32, plus 63; and every byte it emits has a code between 63
    and 126. *)
Theorem serialize_emits_chunks d out :
  zigzag_safe d ->
  let z := zigzag d in
  let n := continuation_count z in
  serialize d out =
    out ++
    map (fun i =>
           char_of_int
             (Z.lor 32 (Z.land (Z.shiftr z (5 * Z.of_nat i)) 31) + 63))
        (seq 0 n) ++
    [char_of_int (Z.shiftr z (5 * Z.of_nat n) + 63)] /\
  (forall i, (i < n)%nat -> 32 <= Z.shiftr z (5 * Z.of_nat i)) /\
  0 <= Z.shiftr z (5 * Z.of_nat n) < 32 /\
  Forall printable (serialize d []).
Proof.
  intros H z n. pose proof (zigzag_range d H) as Hz. fold z in Hz.
  split; [| split; [| split]].
  - rewrite serialize_varint5 by assumption. reflexivity.
  - intros i Hi. apply continuation_guard; [lia | exact Hi].
  - apply last_chunk_range. lia.
  - rewrite serialize_varint5 by assumption. cbn [app].
    apply varint5_printable. lia.
Qed.

End Codec.

(** * Instances of the properties *)

(** Half of the precision is met up to the rounding of binary64 only: at
    six digits the longitude -3.3817035, whose product with 1000000 is the
    tie -3381703.5, comes back as -3381704 * 1e-6, further from the
    original than half of 1e-6 by about 7e-17. *)
Lemma roundtrip_half_precision_tie :
  representable 1000000 (mkPoint (-3.3817035) 0) /\
  deltas_safe 0 0 (map (scaled 1000000) [mkPoint (-3.3817035) 0]) /\
  decode true (C := list Point)
    (encode [mkPoint (-3.3817035) 0] 1000000) 1e-6 =
  Some (Ok [mkPoint (double_of_int (-3381704) * 1e-6)
                    (double_of_int 0 * 1e-6)]) /\
  (Q_of_double 1e-6 / 2 <
   Qabs (Q_of_double (double_of_int (-3381704) * 1e-6) -
         Q_of_double (-3.3817035)))%Q /\
  (Qabs (Q_of_double (double_of_int (-3381704) * 1e-6) -
         Q_of_double (-3.3817035)) <
   Q_of_double 1e-6 / 2 + (1 # 10000000000000000))%Q.
Proof. by_computation. Qed.

(** On "_p~iF~ps|U", and on a buffer whose latitude sample has eight bytes:
    the chunk 2 of its last byte is shifted by 35, that is by 3, so the
    latitude read is 8. *)
Lemma pop_latitude_then_longitude_witness :
  (let d := Shape5Decoder_new (list_ascii_of_string "_p~iF~ps|U") 1e-5 in
   pop true d =
   (Ok (mkPoint (double_of_int (-12020000) * 1e-5)
                (double_of_int 3850000 * 1e-5)),
    mkShape5Decoder (mem d) 10 10 3850000 (-12020000) 1e-5)) /\
  (let d := Shape5Decoder_new (list_ascii_of_string "_______A?") 1e-5 in
   pop true d =
   (Ok (mkPoint (double_of_int 0 * 1e-5) (double_of_int 8 * 1e-5)),
    mkShape5Decoder (mem d) 9 9 8 0 1e-5)).
Proof.
  split.
  - exact (proj2 (proj2 (pop_latitude_then_longitude true))
             (Shape5Decoder_new (list_ascii_of_string "_p~iF~ps|U") 1e-5)
             7700000 (list_ascii_of_string "~ps|U") 24039999 []
             (conj (Nat.le_0_l _) (Nat.le_refl _)) eq_refl eq_refl).
  - exact (proj2 (proj2 (pop_latitude_then_longitude true))
             (Shape5Decoder_new (list_ascii_of_string "_______A?") 1e-5)
             16 (list_ascii_of_string "?") 0 []
             (conj (Nat.le_0_l _) (Nat.le_refl _)) eq_refl eq_refl).
Defined.

Lemma encode_serializes_deltas_witness :
  (Qabs (inject_Z (int_of_round 2.5) - Q_of_double 2.5) <= 1 # 2)%Q /\
  int_of_round 2.5 = 3 /\ int_of_round (-2.5) = -3.
Proof.
  assert (H : fits_int 2.5) by by_computation.
  split; [| split; reflexivity].
  exact (proj1 (proj1 (proj2 (proj2 (proj2 encode_serializes_deltas))) _ H)).
Defined.

Lemma truncated_sample_throws_witness :
  decode true (C := list Point) (list_ascii_of_string "??_") DECODE_PRECISION =
    Some (Throw MalformedStream) /\
  decode_vector true (list_ascii_of_string "??_") DECODE_PRECISION =
    Some (Throw MalformedStream).
Proof.
  assert (Hne : list_ascii_of_string "_" <> []) by discriminate.
  assert (Hf : Forall (fun c => flagged true c = true)
                 (list_ascii_of_string "_"))
    by (repeat constructor).
  exact (proj1 (truncated_sample_throws true _ DECODE_PRECISION Hne Hf)
           (list_ascii_of_string "??")).
Defined.

Lemma zigzag_symmetry_witness :
  -1000000 <= -7 <= 1000000 /\ unzigzag (zigzag (-7)) = -7.
Proof.
  assert (H : -1000000 <= -7 <= 1000000) by lia.
  split; [exact H | exact (zigzag_symmetry (-7) H)].
Defined.

(** C7 as stated fails: the encoding of (lon -122.483696, lat 38.58) is not
    "_p~iF~ps|U". *)
Lemma single_point_counterexample :
  encode [mkPoint (-122.483696) 38.58] 100000 =
    list_ascii_of_string "_dnjFbrqjV" /\
  list_ascii_of_string "_dnjFbrqjV" <> list_ascii_of_string "_p~iF~ps|U".
Proof. split; [vm_compute; reflexivity | discriminate]. Qed.

Lemma decode_capacity_independent_witness :
  decoded data (decode_vector true (list_ascii_of_string "_p~iF~ps|U") 1e-5) =
  decoded elements
    (decode true (C := list Point) (list_ascii_of_string "_p~iF~ps|U") 1e-5).
Proof.
  exact (proj1 (decode_capacity_independent true (list Point) _
                  (list_ascii_of_string "_p~iF~ps|U") 1e-5)).
Defined.

(** On the lone sample "_p~iF" the latitude left behind is 3850000; on the
    lone sample "_______A", of eight bytes, it is 8: the chunk 2 of the last
    byte is shifted by 35, that is by 3. *)
Lemma pop_without_longitude_witness :
  pop true (Shape5Decoder_new (list_ascii_of_string "_p~iF") DECODE_PRECISION) =
    (Throw MalformedStream,
     mkShape5Decoder (list_ascii_of_string "_p~iF") 5 5 3850000 0
       DECODE_PRECISION) /\
  pop true
    (Shape5Decoder_new (list_ascii_of_string "_______A") DECODE_PRECISION) =
    (Throw MalformedStream,
     mkShape5Decoder (list_ascii_of_string "_______A") 8 8 8 0
       DECODE_PRECISION).
Proof.
  split.
  - destruct (proj1 (pop_without_longitude true
                       (Shape5Decoder_new (list_ascii_of_string "_p~iF")
                          DECODE_PRECISION)
                       (list_ascii_of_string "_p~iF")
                       (conj (Nat.le_0_l _) (Nat.le_refl _)) eq_refl eq_refl))
      as [v [Ev Ep]].
    vm_compute in Ev. injection Ev as <-. exact Ep.
  - destruct (proj1 (pop_without_longitude true
                       (Shape5Decoder_new (list_ascii_of_string "_______A")
                          DECODE_PRECISION)
                       (list_ascii_of_string "_______A")
                       (conj (Nat.le_0_l _) (Nat.le_refl _)) eq_refl eq_refl))
      as [v [Ev Ep]].
    vm_compute in Ev. injection Ev as <-. exact Ep.
Defined.

(** * Further properties, across the two kinds of [char] *)

Lemma int_of_char_ascii c :
  code c < 128 -> int_of_char true c = int_of_char false c.
Proof.
  intros H. unfold int_of_char.
  destruct (Z.leb_spec 128 (code c)); [lia | reflexivity].
Qed.

Lemma read_sample_ascii bytes : forall shift result,
  Forall (fun c => code c < 128) bytes ->
  read_sample true bytes shift result = read_sample false bytes shift result.
Proof.
  induction bytes as [| c bytes IH]; intros shift result H; [reflexivity |].
  inversion H as [| ? ? Hc Hb]; subst. cbn [read_sample].
  rewrite (int_of_char_ascii c Hc).
  destruct (32 <=? int_of_char false c - 63); [now apply IH | reflexivity].
Qed.

Lemma read_sample_rest_ascii b bytes shift result v rest :
  Forall (fun c => code c < 128) bytes ->
  read_sample b bytes shift result = Some (v, rest) ->
  Forall (fun c => code c < 128) rest.
Proof.
  intros H E. destruct (read_sample_some b _ _ _ _ _ E) as [smp [-> _]].
  now apply Forall_app in H.
Qed.

Lemma decode_ints_loop_ascii fuel : forall bytes lo la,
  Forall (fun c => code c < 128) bytes ->
  decode_ints_loop true fuel bytes lo la =
  decode_ints_loop false fuel bytes lo la.
Proof.
  induction fuel as [| fuel IH]; intros bytes lo la H; [reflexivity |].
  cbn [decode_ints_loop]. destruct bytes as [| a bytes]; [reflexivity |].
  rewrite (read_sample_ascii _ 0 0 H).
  destruct (read_sample false (a :: bytes) 0 0) as [[v1 r1] |] eqn:E1;
    [| reflexivity].
  pose proof (read_sample_rest_ascii _ _ _ _ _ _ H E1) as H1.
  cbv zeta. rewrite (read_sample_ascii _ 0 0 H1).
  destruct (read_sample false r1 0 0) as [[v2 r2] |] eqn:E2; [| reflexivity].
  pose proof (read_sample_rest_ascii _ _ _ _ _ _ H1 E2) as H2.
  now rewrite (IH r2 _ _ H2).
Qed.

(** X13. On a buffer of bytes below 128, 7-bit text as [encode] emits it,
    [decode] does the same whether [char] is signed or unsigned: the same
    points, or the same error, from both overloads. *)
Theorem decode_ascii_portable buf precision :
  Forall (fun c => code c < 128) buf ->
  decode true (C := list Point) buf precision =
    decode false (C := list Point) buf precision /\
  decoded data (decode_vector true buf precision) =
    decoded data (decode_vector false buf precision).
Proof.
  intros H.
  assert (E : decode true (C := list Point) buf precision =
              decode false (C := list Point) buf precision).
  { rewrite !decode_list_ints. unfold decode_ints.
    now rewrite (decode_ints_loop_ascii _ _ _ _ H). }
  split; [exact E |]. now rewrite !decode_vector_decoded.
Qed.

(** * Further properties of the 7-bit codec *)

Lemma encode7_fold encode7Sample precision points : forall st,
  Varint7.output
    (fold_left (Varint7.encode7_step encode7Sample precision) points st) =
  fold_left
    (fun out dl => encode7Sample (snd dl) (encode7Sample (fst dl) out))
    (deltas (Varint7.last_lon st) (Varint7.last_lat st)
            (map (scaled precision) points))
    (Varint7.output st).
Proof.
  induction points as [| p points IH]; intros st; [reflexivity |].
  cbn [fold_left map]. rewrite IH. reflexivity.
Qed.

Lemma fold_serialize dl : forall out,
  fold_left (fun out d => serialize (snd d) (serialize (fst d) out)) dl out =
  out ++ flat_map point_bytes dl.
Proof.
  induction dl as [| d dl IH]; intros out; cbn [fold_left flat_map].
  - now rewrite app_nil_r.
  - rewrite IH. unfold point_bytes.
    rewrite (serialize_output (snd d)), (serialize_output (fst d)).
    now rewrite <- !app_assoc.
Qed.

(** X15. [encode7] hands [encode7Sample], whatever it is, the deltas that
    [encode] hands [serialize], in the same order: for each point the
    latitude delta and then the longitude delta against the integer
    coordinates of the previous point, from zero. With [serialize] for
    [encode7Sample], [encode7] is [encode]. *)
Theorem encode7_deltas :
  (forall encode7Sample points precision,
     Varint7.encode7 encode7Sample points precision =
     fold_left
       (fun out dl => encode7Sample (snd dl) (encode7Sample (fst dl) out))
       (deltas 0 0 (map (scaled precision) points)) []) /\
  (forall points precision,
     Varint7.encode7 serialize points precision = encode points precision).
Proof.
  split.
  - intros encode7Sample points precision. unfold Varint7.encode7.
    now rewrite encode7_fold.
  - intros points precision. unfold Varint7.encode7.
    rewrite encode7_fold. cbn [Varint7.output Varint7.last_lon
                              Varint7.last_lat].
    rewrite fold_serialize, encode_deltas. reflexivity.
Qed.

Lemma decode7_loop_containers decode7Sample {C} `{container_t C} fuel :
  forall d v (c : C),
  data v = elements c ->
  decoded data
    (Varint7.decode7_loop decode7Sample vector_emplace_back fuel d v) =
  decoded elements
    (Varint7.decode7_loop decode7Sample emplace_back fuel d c).
Proof.
  induction fuel as [| fuel IH]; intros d v c E; [reflexivity |].
  cbn [Varint7.decode7_loop]. destruct (negb (Varint7.empty d)).
  - destruct (Varint7.pop decode7Sample d) as [[p | w |] d'];
      try reflexivity.
    apply IH. rewrite data_vector_emplace_back, elements_emplace_back.
    now rewrite E.
  - cbn. now rewrite E.
Qed.

(** X16. Whatever [decode7Sample] does, and for every number of turns of
    the loop, [decode7] into a [std::vector], with its [reserve], and
    [decode7] into another container give the same points, the same error,
    or are both still running. *)
Theorem decode7_capacity_independent decode7Sample (C : Type)
  (I : container_t C) fuel encoded precision :
  decoded data (Varint7.decode7_vector decode7Sample fuel encoded precision) =
  decoded elements
    (Varint7.decode7 decode7Sample (C := C) fuel encoded precision).
Proof.
  unfold Varint7.decode7_vector, Varint7.decode7. cbv zeta.
  apply decode7_loop_containers. now rewrite data_reserve, elements_new.
Qed.

(** * Instances of the further properties *)

Lemma decode_running_sums_witness :
  decode true (C := list Point) (list_ascii_of_string "CA@?") 1e-5 =
  Some (Ok (map (unscaled 1e-5) [(1, 2); (1, 1)])).
Proof.
  refine (decode_running_sums true [(2, 1); (-1, 0)] 1e-5 _).
  repeat constructor; unfold zigzag_safe; cbn [fst snd]; lia.
Defined.

Lemma decode_prefix_witness :
  exists pts2,
    [mkPoint (double_of_int (-12020000) * 1e-5)
             (double_of_int 3850000 * 1e-5);
     mkPoint (double_of_int (-12095000) * 1e-5)
             (double_of_int 4070000 * 1e-5)] =
    [mkPoint (double_of_int (-12020000) * 1e-5)
             (double_of_int 3850000 * 1e-5)] ++ pts2.
Proof.
  refine (decode_prefix true (list_ascii_of_string "_p~iF~ps|U")
            (list_ascii_of_string "_ulLnnqC") 1e-5 _ _ _ _);
    vm_compute; reflexivity.
Defined.

Lemma encode_injective_witness :
  map (scaled 100000) [mkPoint 0.000001 0; mkPoint 1.5 2.25] =
  map (scaled 100000) [mkPoint 0.0000012 0; mkPoint 1.5000001 2.25].
Proof.
  refine (encode_injective true _ 100000 _ 100000 _ _ _); by_computation.
Defined.

Lemma decode_size_witness :
  (2 * List.length
         [mkPoint (double_of_int (-12020000) * 1e-5)
                  (double_of_int 3850000 * 1e-5)]
   <= List.length (list_ascii_of_string "_p~iF~ps|U"))%nat.
Proof.
  refine (proj2 (proj1 (decode_size true (list_ascii_of_string "_p~iF~ps|U")
                          1e-5)
                   (list Point) list_container _ _)).
  vm_compute. reflexivity.
Defined.

Lemma pop_on_empty_witness :
  pop true (Shape5Decoder_new [] DECODE_PRECISION) =
  (Throw MalformedStream, Shape5Decoder_new [] DECODE_PRECISION).
Proof.
  exact (proj2 (pop_on_empty true (Shape5Decoder_new [] DECODE_PRECISION)
                  eq_refl)).
Defined.

Lemma serialize_length_by_magnitude_witness :
  (List.length (serialize (-16) []) <= 1)%nat /\
  ~ (List.length (serialize 16 []) <= 1)%nat.
Proof.
  split.
  - refine (proj2 (serialize_length_by_magnitude (-16) 1 _ _) _);
      unfold zigzag_safe; cbn; lia.
  - intros H.
    refine (_ (proj1 (serialize_length_by_magnitude 16 1 _ _) H));
      unfold zigzag_safe; cbn; lia.
Defined.

Lemma encode_printable_witness :
  Forall printable
    (encode [mkPoint (-120.2) 38.5; mkPoint (-120.95) 40.7] 100000).
Proof.
  refine (encode_printable _ 100000 _). by_computation.
Defined.

Lemma zigzag_unzigzag_witness :
  zigzag_safe (unzigzag 24039999) /\ zigzag (unzigzag 24039999) = 24039999.
Proof. refine (zigzag_unzigzag 24039999 _). lia. Defined.

Lemma serialize_out_of_range_witness :
  zigzag 1073741824 < 0 /\
  serialize 1073741824 [] = [] ++ [char_of_int (zigzag 1073741824 + 63)].
Proof.
  refine (serialize_out_of_range 1073741824 [] _ _).
  - int_bounds.
  - unfold zigzag_safe. lia.
Defined.

Lemma decode_ascii_portable_witness :
  decode true (C := list Point) (list_ascii_of_string "_sjz~U>") 1e-7 =
  decode false (C := list Point) (list_ascii_of_string "_sjz~U>") 1e-7.
Proof.
  refine (proj1 (decode_ascii_portable (list_ascii_of_string "_sjz~U>")
                   1e-7 _)).
  repeat constructor.
Defined.

Lemma decode_encode_roundtrip_witness :
  let points :=
    [mkPoint (-120.2) 38.5; mkPoint (-120.95) 40.7;
     mkPoint (-126.453) 43.252] in
  decode true (C := list Point) (encode points 100000) 1e-5 =
  Some (Ok (map (unscaled 1e-5) (map (scaled 100000) points))).
Proof.
  refine (proj1 (decode_encode_roundtrip true
                   [mkPoint (-120.2) 38.5; mkPoint (-120.95) 40.7;
                    mkPoint (-126.453) 43.252] 100000 1e-5 _ _)).
  - repeat constructor; by_computation.
  - by_computation.
Defined.

Lemma serialize_emits_chunks_witness :
  zigzag_safe (-12020000) /\
  serialize (-12020000) [] = list_ascii_of_string "~ps|U" /\
  Forall printable (serialize (-12020000) []).
Proof.
  assert (H : zigzag_safe (-12020000)) by (unfold zigzag_safe; lia).
  split; [exact H |]. split; [reflexivity |].
  exact (proj2 (proj2 (proj2 (serialize_emits_chunks (-12020000) [] H)))).
Defined.
